(** * s3-mcp: the deploy, seed and teardown scripts

    A shallow embedding of the three command-line scripts of the repository
    (deploy.js, the seed/setup script, teardown.js) and of the helper
    utils/read-outputs.js they share, followed by the properties the
    specification states about them.

    The scripts are straight-line orchestration around the AWS CLI
    ([execSync]), the S3 client, the file system and [JSON].  Those are not
    code of the repository: they are collected in a [runtime] record whose
    answers may depend on everything the script has done so far.  Each script
    is a computation in a small monad over the process state (the calls made,
    the console, the file outputs.json) that ends by returning, by
    [process.exit] or by throwing. *)

From Stdlib Require Import ZArith Lia Ascii String List DecimalString.
From stdpp Require Import base strings list gmap.

Set Warnings "-register-all".
Local Open Scope Z_scope.
Local Open Scope stdpp_scope.

(** ** JavaScript values *)

Module JS.

(** A value produced by [JSON.parse].  A number carries the text
    [Number::toString] gives it (so both zeros are ["0"]); an object carries
    its own properties, one entry per name. *)
Inductive json : Type :=
| JNull
| JBool (b : bool)
| JNum (repr : string)
| JStr (s : string)
| JArr (items : list json)
| JObj (fields : list (string * json)).

(** A value as the scripts see it: [None] is [undefined]. *)
Definition value : Type := option json.

Definition undefined : value := None.
Definition str (s : string) : value := Some (JStr s).

(** [ToBoolean]. *)
Definition truthy (v : value) : bool :=
  match v with
  | None => false
  | Some JNull => false
  | Some (JBool b) => b
  | Some (JNum r) => negb (String.eqb r "0")
  | Some (JStr s) => negb (String.eqb s "")
  | Some (JArr _) => true
  | Some (JObj _) => true
  end.

(** [a || b]. *)
Definition or (a b : value) : value := if truthy a then a else b.

Fixpoint join (sep : string) (l : list string) : string :=
  match l with
  | [] => ""
  | [s] => s
  | s :: rest => s +:+ sep +:+ join sep rest
  end.

Fixpoint assoc (k : string) (fs : list (string * json)) : value :=
  match fs with
  | [] => None
  | (k', v) :: fs' => if String.eqb k k' then Some v else assoc k fs'
  end.

(** A thrown [Error]. *)
Record error : Type := Error { name : string; message : string }.

Definition TypeError (m : string) : error := Error "TypeError" m.

(** [ToString] on a parsed value; [None] is the [TypeError] it throws.  An
    object is converted by its [toString] method, then by [valueOf].  A
    parsed object inherits both from [Object.prototype], whose [toString]
    gives ["[object Object]"]; a member of its own named [toString] hides
    that method and, coming from JSON, is no function, while [valueOf]
    (inherited, or hidden in the same way) gives no primitive: the
    conversion then throws.  An array joins its elements with commas, a null
    element giving the empty text. *)
Fixpoint ToString_json (j : json) : option string :=
  match j with
  | JNull => Some "null"
  | JBool true => Some "true"
  | JBool false => Some "false"
  | JNum r => Some r
  | JStr s => Some s
  | JArr l =>
      option_map (join ",")
        ((fix elems (l : list json) : option (list string) :=
            match l with
            | [] => Some []
            | x :: l' =>
                match match x with JNull => Some "" | _ => ToString_json x end,
                      elems l' with
                | Some s, Some ss => Some (s :: ss)
                | _, _ => None
                end
            end) l)
  | JObj fs =>
      match assoc "toString" fs with
      | Some _ => None
      | None => Some "[object Object]"
      end
  end.

Definition cannot_convert : error :=
  TypeError "Cannot convert object to primitive value".

(** [ToString], as a template literal, a property access [o[v]] and
    [RegExp.prototype.test] apply it. *)
Definition ToString (v : value) : error + string :=
  match v with
  | None => inr "undefined"
  | Some j =>
      match ToString_json j with
      | Some s => inr s
      | None => inl cannot_convert
      end
  end.

(** The text a template literal shows for a property that holds a text or
    nothing. *)
Definition shown_text (o : option string) : string :=
  match o with
  | Some s => s
  | None => "undefined"
  end.

(** [s.includes(sub)]. *)
Fixpoint includes (s sub : string) : bool :=
  if String.prefix sub s then true
  else match s with
       | EmptyString => false
       | String _ s' => includes s' sub
       end.

(** Text is held as its UTF-8 bytes.  A byte starts a character unless it is
    a continuation byte (binary 10xxxxxx). *)
Definition continuation (c : ascii) : bool :=
  let n := nat_of_ascii c in (128 <=? n)%nat && (n <? 192)%nat.

(** [s.length]: the UTF-16 units of the text, two for a character of four
    bytes (lead byte 240 and up). *)
Fixpoint js_length (s : string) : nat :=
  match s with
  | EmptyString => 0
  | String c s' =>
      ((if continuation c then 0 else if (240 <=? nat_of_ascii c)%nat then 2 else 1)
       + js_length s')%nat
  end.

(** The characters of a text, as [for ... of] walks them. *)
Fixpoint code_points (s : string) : list string :=
  match s with
  | EmptyString => []
  | String c s' =>
      match code_points s' with
      | h :: t =>
          match s' with
          | String c' _ => if continuation c' then String c h :: t
                           else String c "" :: h :: t
          | EmptyString => String c "" :: h :: t
          end
      | [] => [String c ""]
      end
  end.

Definition decimal (n : nat) : string :=
  NilEmpty.string_of_uint (Nat.to_uint n).

(** [j.k] for the property names the scripts read: [length], which an
    array and a text have, and names ([BucketName], [Key], [Versions], ...)
    that are no member of a built-in prototype, so that only an object can
    have them.  [None] is the [TypeError] of reading a property of
    [null]. *)
Definition get (j : json) (k : string) : option value :=
  match j with
  | JNull => None
  | JObj fs => Some (assoc k fs)
  | JArr l =>
      Some (if String.eqb k "length" then Some (JNum (decimal (length l))) else undefined)
  | JStr s =>
      Some (if String.eqb k "length" then Some (JNum (decimal (js_length s))) else undefined)
  | _ => Some undefined
  end.

(** [s.toLowerCase()] on the letters A to Z. *)
Definition lower (c : ascii) : ascii :=
  let n := nat_of_ascii c in
  if (65 <=? n)%nat && (n <=? 90)%nat then ascii_of_nat (n + 32) else c.

Fixpoint toLowerCase (s : string) : string :=
  match s with
  | EmptyString => EmptyString
  | String c s' => String (lower c) (toLowerCase s')
  end.

(** *** The object [{}] used as a map

    The accumulator of [readOutputs] starts as [{}] and is filled by
    assignments [acc[k] = v].  Its own properties are a finite map.  The one
    name an assignment treats differently is [__proto__], the accessor of
    [Object.prototype]: while that accessor is what the assignment finds, an
    object, array or [null] becomes the prototype and any other value is
    dropped. *)
Inductive proto : Type :=
| ObjectPrototype
| ProtoIs (j : json).

Record object : Type := Obj {
  own : gmap string value;
  prototype : proto
}.

Definition empty_object : object := Obj ∅ ObjectPrototype.

(** Whether an assignment to [__proto__] that finds no own property reaches
    the accessor: not when the prototype is [null], nor when a parsed object
    in between has a data property of that name. *)
Definition reaches_proto_setter (p : proto) : bool :=
  match p with
  | ObjectPrototype => true
  | ProtoIs JNull => false
  | ProtoIs (JObj fs) =>
      match assoc "__proto__" fs with Some _ => false | None => true end
  | ProtoIs _ => true
  end.

(** [o[k] = v]. *)
Definition set (o : object) (k : string) (v : value) : object :=
  if String.eqb k "__proto__"
     && bool_decide (own o !! k = None)
     && reaches_proto_setter (prototype o)
  then
    match v with
    | Some (JObj fs) => Obj (own o) (ProtoIs (JObj fs))
    | Some (JArr l) => Obj (own o) (ProtoIs (JArr l))
    | Some JNull => Obj (own o) (ProtoIs JNull)
    | _ => o
    end
  else Obj (<[k := v]> (own o)) (prototype o).

(** [o.k] for the names the scripts read ([BucketName], [Region],
    [TrustPolicyAccountIdOne], [TrustPolicyAccountIdTwo]): an own property,
    else a property of a parsed object installed as prototype. *)
Definition field (o : object) (k : string) : value :=
  match own o !! k with
  | Some v => v
  | None =>
      match prototype o with
      | ProtoIs (JObj fs) => assoc k fs
      | _ => undefined
      end
  end.

End JS.

Import JS.

(** ** The runtime and the process *)

(** The error [execSync] throws; [stdout] and [stderr] are absent when the
    child could not be spawned. *)
Record exec_error : Type := ExecError {
  exec_message : string;
  exec_stdout : option string;
  exec_stderr : option string
}.

Inductive exec_result : Type :=
| ExecOk (out : string)
| ExecFailed (e : exec_error).

(** The configuration [new S3Client(config)] receives. *)
Record s3_config : Type := S3Config {
  cfg_region : value;
  cfg_credentials : option (string * string * option string)
}.

(** Calls that leave the process. *)
Inductive event : Type :=
| Exec (command : string)
| ListObjectsV2 (cfg : s3_config) (Bucket : value) (MaxKeys : Z)
| PutObject (cfg : s3_config) (Bucket : value) (Key : string) (Body : string)
            (ContentType : string) (Metadata : list (string * string))
| Question (prompt : string).

(** A file that exists: its text, or the error reading it raises. *)
Inductive file : Type :=
| Unreadable (e : error)
| Content (text : string).

Inductive line : Type :=
| Out (text : string)
| Err (text : string).

Record dirent : Type := Dirent {
  d_name : string;
  d_stat : error + (bool * nat)   (* isFile(), size *)
}.

(** A path is the list of its segments below the root. *)
Definition path : Type := list string.

(** What the scripts do not define.  The answers of the outside world are
    functions of the calls made so far. *)
Record runtime : Type := Runtime {
  JSON_parse : string -> error + json;
  JSON_stringify : json -> string;             (* JSON.stringify(v, null, 2) *)
  execSync : list event -> string -> exec_result;
  s3_send : list event -> event -> error + option string;   (* response.ETag *)
  question : list event -> string -> string;
  writeFileSync : list event -> path -> option error;
  unlinkSync : list event -> path -> option error;
  readdir : path -> error + list dirent;
  now : list event -> string;                   (* new Date().toISOString() *)
  magnitude : nat -> nat;       (* Math.floor(Math.log(bytes) / Math.log(1024)) *)
  inspect : object -> string;                   (* how console.log shows an object *)
  greater : json -> Z -> bool;                  (* v > n *)
  sum_is_zero : json -> json -> bool;           (* v + w === 0 *)
  scripts_dir : path                            (* __dirname of the scripts *)
}.

(** [v > n] and [v + w === 0] first turn an operand that is an object or
    an array into a primitive, which throws when [ToString] does; the
    comparison of the primitives is the runtime's.  [undefined] is [NaN]
    there: the comparison is false and the sum is not 0. *)
Definition primitive (j : json) : error + json :=
  match ToString_json j with
  | Some _ => inr j
  | None => inl cannot_convert
  end.

Definition gt (rt : runtime) (v : value) (n : Z) : error + bool :=
  match v with
  | Some j =>
      match primitive j with
      | inr j => inr (greater rt j n)
      | inl e => inl e
      end
  | None => inr false
  end.

Definition sum_zero (rt : runtime) (v w : value) : error + bool :=
  match v, w with
  | Some j, Some j' =>
      match primitive j, primitive j' with
      | inr j, inr j' => inr (sum_is_zero rt j j')
      | inl e, _ => inl e
      | _, inl e => inl e
      end
  | Some j, None | None, Some j =>
      match primitive j with
      | inr _ => inr false
      | inl e => inl e
      end
  | None, None => inr false
  end.

Record proc : Type := Proc {
  trace : list event;
  console : list line;
  files : gmap path file
}.

Inductive outcome (A : Type) : Type :=
| Ret (a : A)
| Exit (code : Z)
| Throw (e : error).
Arguments Ret {A} a.
Arguments Exit {A} code.
Arguments Throw {A} e.

Definition M (A : Type) : Type := proc -> outcome A * proc.

Definition ret {A} (a : A) : M A := fun p => (Ret a, p).

Definition bind {A B} (m : M A) (k : A -> M B) : M B :=
  fun p =>
    match m p with
    | (Ret a, p') => k a p'
    | (Exit c, p') => (Exit c, p')
    | (Throw e, p') => (Throw e, p')
    end.

Notation "x <- m ;; k" := (bind m (fun x => k))
  (at level 100, m at next level, right associativity).
Notation "m ;;; k" := (bind m (fun _ => k))
  (at level 100, right associativity).

(** [process.exit(code)]. *)
Definition exit {A} (code : Z) : M A := fun p => (Exit code, p).

Definition throw {A} (e : error) : M A := fun p => (Throw e, p).

(** [try { body } catch (error) { handler }]; [process.exit] is not caught. *)
Definition try_catch {A} (body : M A) (handler : error -> M A) : M A :=
  fun p =>
    match body p with
    | (Throw e, p') => handler e p'
    | r => r
    end.

Definition console_log (s : string) : M unit :=
  fun p => (Ret tt, Proc (trace p) (console p ++ [Out s]) (files p)).

Definition console_error (s : string) : M unit :=
  fun p => (Ret tt, Proc (trace p) (console p ++ [Err s]) (files p)).

Definition when (b : bool) (m : M unit) : M unit := if b then m else ret tt.

(** The exit status of the node process once a script's [main] has run: an
    uncaught error or rejection ends it with status 1. *)
Definition exit_code {A} (o : outcome A) : Z :=
  match o with
  | Ret _ => 0
  | Exit c => c
  | Throw _ => 1
  end.

Definition LF : string := String (ascii_of_nat 10) EmptyString.

(** *** Paths

    [__dirname] is an absolute, normalised path; [path.join] appends the
    segments of its further arguments and resolves [.] and [..]. *)

Fixpoint split_slash (s : string) : list string :=
  match s with
  | EmptyString => [""]
  | String c s' =>
      if Ascii.eqb c "/" then "" :: split_slash s'
      else match split_slash s' with
           | [] => [String c ""]
           | h :: t => String c h :: t
           end
  end.

Definition path_step (p : path) (seg : string) : path :=
  if String.eqb seg ".." then removelast p
  else if String.eqb seg "." || String.eqb seg "" then p
  else p ++ [seg].

Definition path_join (base : path) (parts : list string) : path :=
  fold_left path_step (concat (map split_slash parts)) base.

Definition path_text (p : path) : string :=
  "/" +:+ join "/" p.

Definition ENOENT (p : path) : error :=
  Error "Error" ("ENOENT: no such file or directory, open '" +:+ path_text p +:+ "'").

(** [fs.readFile(p, 'utf8')]. *)
Definition fs_readFile (f : path) : M string :=
  fun p =>
    match files p !! f with
    | None => (Throw (ENOENT f), p)
    | Some (Unreadable e) => (Throw e, p)
    | Some (Content text) => (Ret text, p)
    end.

Definition lift {A} (r : error + A) : M A :=
  match r with
  | inl e => throw e
  | inr a => ret a
  end.

(** [j.k], which throws when [j] is [null]. *)
Definition prop (j : json) (k : string) : M value :=
  match JS.get j k with
  | Some v => ret v
  | None => throw (TypeError "Cannot read properties of null")
  end.

(** A substitution [${v}] of a template literal. *)
Definition text (v : value) : M string := lift (ToString v).

(** ** utils/read-outputs.js *)

Module ReadOutputs.
Section WithRuntime.
Variable rt : runtime.

(** [__dirname] of utils/read-outputs.js, which deploy.js requires as
    ./utils/read-outputs. *)
Definition dirname : path := scripts_dir rt ++ ["utils"].

Definition outputs_path : path := path_join dirname ["../.."; "outputs.json"].

(** The callback of [reduce]: [acc[output.OutputKey] = output.OutputValue],
    the key being turned into a property name. *)
Definition reducer (acc : object) (output : json) : error + object :=
  match JS.get output "OutputKey", JS.get output "OutputValue" with
  | Some k, Some v =>
      match ToString k with
      | inr key => inr (JS.set acc key v)
      | inl e => inl e
      end
  | _, _ => inl (TypeError "Cannot read properties of null")
  end.

Fixpoint reduce (l : list json) (acc : object) : error + object :=
  match l with
  | [] => inr acc
  | output :: l' =>
      match reducer acc output with
      | inl e => inl e
      | inr acc' => reduce l' acc'
      end
  end.

(** [JSON.parse(outputContents).reduce(..., {})]: only an array has a
    [reduce] to call. *)
Definition flatten (parsed : json) : error + object :=
  match parsed with
  | JArr l => reduce l empty_object
  | _ => inl (TypeError "reduce is not a function")
  end.

Definition readOutputs : M object :=
  try_catch
    (outputContents <- fs_readFile outputs_path ;;
     parsed <- lift (JSON_parse rt outputContents) ;;
     lift (flatten parsed))
    (fun _ => ret empty_object).

End WithRuntime.
End ReadOutputs.

(** ** Running the AWS CLI *)

Definition DQ : string := String (ascii_of_nat 34) EmptyString.

(** [if (s)] on a captured stream. *)
Definition present (s : option string) : bool :=
  match s with
  | Some t => negb (String.eqb t "")
  | None => false
  end.

Definition shown (s : option string) : string :=
  match s with
  | Some t => t
  | None => ""
  end.

Section Exec.
Variable rt : runtime.

(** [execSync(command, ...)]: the call is recorded, the answer is the
    world's. *)
Definition run (command : string) : M exec_result :=
  fun p =>
    (Ret (execSync rt (trace p) command),
     Proc (trace p ++ [Exec command]) (console p) (files p)).

(** [fs.writeFileSync(f, text)]. *)
Definition fs_writeFileSync (f : path) (text : string) : M unit :=
  fun p =>
    match writeFileSync rt (trace p) f with
    | Some e => (Throw e, p)
    | None => (Ret tt, Proc (trace p) (console p) (<[f := Content text]> (files p)))
    end.

(** [fs.unlinkSync(f)]. *)
Definition fs_unlinkSync (f : path) : M unit :=
  fun p =>
    match unlinkSync rt (trace p) f with
    | Some e => (Throw e, p)
    | None => (Ret tt, Proc (trace p) (console p) (delete f (files p)))
    end.

Definition fs_existsSync (f : path) : M bool :=
  fun p => (Ret (bool_decide (is_Some (files p !! f))), p).

End Exec.

(** ** deploy.js *)

Module Deploy.

(** The [options] object [parseArgs] builds; an option that was not given is
    [undefined]. *)
Record deploy_options : Type := Options {
  region : option string;
  bucketName : option string;
  trustAccountOne : option string;
  trustAccountTwo : option string
}.

Section WithRuntime.
Variable rt : runtime.
Variable env : gmap string string.   (* process.env *)

Definition opt (o : option string) : value := JStr <$> o.
Definition getenv (k : string) : value := JStr <$> (env !! k).

Definition usage : string :=
  join LF
    [ "";
      "Usage: node deploy.js [options]";
      "";
      "Options:";
      "  --region <region>                    AWS region to deploy to (default: us-east-1)";
      "  --bucket-name <name>                 S3 bucket name (default: s3-mcp-bucket)";
      "  --trust-account-one <account-id>     First Vendia account ID for trust policy (default: 690332314549)";
      "  --trust-account-two <account-id>     Second Vendia account ID for trust policy (default: 332134949057)";
      "  --help, -h                           Show this help message";
      "";
      "Environment Variables:";
      "  AWS_DEFAULT_REGION                   AWS region (overridden by --region)";
      "  BUCKET_NAME                          S3 bucket name (overridden by --bucket-name)";
      "  TRUST_ACCOUNT_ONE                    First Vendia account ID (overridden by --trust-account-one)";
      "  TRUST_ACCOUNT_TWO                    Second Vendia account ID (overridden by --trust-account-two)";
      "        " ].

(** The [for] loop of [parseArgs] from index [i] on, [args] being what is
    left from [args[i]]: an option takes [args[i + 1]], [undefined] past the
    end, and skips it. *)
Fixpoint parseArgs_loop (args : list string) (options : deploy_options) : M deploy_options :=
  match args with
  | [] => ret options
  | arg :: rest =>
      if String.eqb arg "--region" then
        match rest with
        | [] => ret (Options None (bucketName options) (trustAccountOne options) (trustAccountTwo options))
        | v :: rest' =>
            parseArgs_loop rest'
              (Options (Some v) (bucketName options) (trustAccountOne options) (trustAccountTwo options))
        end
      else if String.eqb arg "--bucket-name" then
        match rest with
        | [] => ret (Options (region options) None (trustAccountOne options) (trustAccountTwo options))
        | v :: rest' =>
            parseArgs_loop rest'
              (Options (region options) (Some v) (trustAccountOne options) (trustAccountTwo options))
        end
      else if String.eqb arg "--trust-account-one" then
        match rest with
        | [] => ret (Options (region options) (bucketName options) None (trustAccountTwo options))
        | v :: rest' =>
            parseArgs_loop rest'
              (Options (region options) (bucketName options) (Some v) (trustAccountTwo options))
        end
      else if String.eqb arg "--trust-account-two" then
        match rest with
        | [] => ret (Options (region options) (bucketName options) (trustAccountOne options) None)
        | v :: rest' =>
            parseArgs_loop rest'
              (Options (region options) (bucketName options) (trustAccountOne options) (Some v))
        end
      else if String.eqb arg "--help" || String.eqb arg "-h" then
        console_log usage ;;; exit 0
      else parseArgs_loop rest options
  end.

(** [parseArgs()], [args] being [process.argv.slice(2)]. *)
Definition parseArgs (args : list string) : M deploy_options :=
  options <- parseArgs_loop args (Options (Some "us-east-1") None None None) ;;
  if negb (truthy (opt (region options))) then
    console_error "❌ Error: Region is required" ;;; exit 1
  else ret options.

Definition STACK_NAME : string := "s3-mcp-infrastructure".
Definition TEMPLATE_FILE : string :=
  path_text (path_join (scripts_dir rt) [".."; "stack.yml"]).

Definition log (message : string) : M unit :=
  console_log ("[DEPLOY] " +:+ message).

Definition execCommand (command description : string) : M string :=
  log description ;;;
  r <- run rt command ;;
  match r with
  | ExecOk result => ret result
  | ExecFailed error =>
      console_error ("Error: " +:+ exec_message error) ;;;
      when (present (exec_stdout error)) (console_log ("STDOUT: " +:+ shown (exec_stdout error))) ;;;
      when (present (exec_stderr error)) (console_error ("STDERR: " +:+ shown (exec_stderr error))) ;;;
      exit 1
  end.

(** The outcome [{ success: true, result }] or
    [{ success: false, error, stdout, stderr }] is the [exec_result]. *)
Definition execCommandSafe (command description : string) : M exec_result :=
  log description ;;;
  run rt command.

Definition checkAWSCLI : M unit :=
  r <- run rt "aws --version" ;;
  match r with
  | ExecOk _ => log "AWS CLI is installed and available"
  | ExecFailed _ =>
      console_error "Error: AWS CLI is not installed or not available in PATH" ;;;
      console_error "Please install AWS CLI: https://docs.aws.amazon.com/cli/latest/userguide/getting-started-install.html" ;;;
      exit 1
  end.

Definition checkAWSCredentials : M unit :=
  r <- run rt "aws sts get-caller-identity" ;;
  match r with
  | ExecOk _ => log "AWS credentials are configured"
  | ExecFailed _ =>
      console_error "Error: AWS credentials are not configured" ;;;
      console_error "Please configure AWS credentials using: aws configure" ;;;
      exit 1
  end.

Definition describe_command (stackName : string) (region : value) : M string :=
  region_ <- text region ;;
  ret ("aws cloudformation describe-stacks --stack-name " +:+ stackName
       +:+ " --region " +:+ region_).

(** The command line is put together inside the [try]: a region that has no
    text counts as a stack that does not exist. *)
Definition stackExists (stackName : string) (region : value) : M bool :=
  try_catch
    (command <- describe_command stackName region ;;
     r <- run rt command ;;
     match r with
     | ExecOk _ => ret true
     | ExecFailed _ => ret false
     end)
    (fun _ => ret false).

Definition rule : string :=
  "──────────────────────────────────────────────────────────────────────────────────────────────────────".

(** The example trust policy and invocation printed when an account ID is
    missing. *)
Definition trust_policy_example : string :=
  join LF
    [ "";
      "{";
      "  " +:+ DQ +:+ "Version" +:+ DQ +:+ ": " +:+ DQ +:+ "2012-10-17" +:+ DQ +:+ ",";
      "  " +:+ DQ +:+ "Statement" +:+ DQ +:+ ": [";
      "    {";
      "      " +:+ DQ +:+ "Effect" +:+ DQ +:+ ": " +:+ DQ +:+ "Allow" +:+ DQ +:+ ",";
      "      " +:+ DQ +:+ "Principal" +:+ DQ +:+ ": {";
      "        " +:+ DQ +:+ "AWS" +:+ DQ +:+ ": [";
      "          " +:+ DQ +:+ "arn:aws:iam::TRUST_ACCOUNT_ONE:root" +:+ DQ +:+ ",";
      "          " +:+ DQ +:+ "arn:aws:iam::TRUST_ACCOUNT_TWO:root" +:+ DQ;
      "        ]";
      "      },";
      "      " +:+ DQ +:+ "Action" +:+ DQ +:+ ": " +:+ DQ +:+ "sts:AssumeRole" +:+ DQ;
      "    }";
      "  ]";
      "} ";
      "";
      "Example:";
      "node deploy.js --trust-account-one 690332314549 --trust-account-two 332134949057 --bucket-name s3-mcp-test-bucket-12345";
      "" ].

(** The command lines.  Each is a template literal: its substitutions are
    turned into text from left to right, and the first that has none throws.
    In the create-stack or update-stack command line a doubled backslash of
    the literal is a backslash in the text and a single one before the line
    end joins the lines. *)
Definition stack_command (operation : string) (trustAccountOne trustAccountTwo region : value)
  : M string :=
  trustAccountOne_ <- text trustAccountOne ;;
  trustAccountTwo_ <- text trustAccountTwo ;;
  region_ <- text region ;;
  ret ("aws cloudformation " +:+ operation +:+ " \" +:+ LF +:+
       "    --stack-name " +:+ STACK_NAME +:+ " \" +:+ LF +:+
       "    --template-body file://" +:+ TEMPLATE_FILE +:+ " \" +:+ LF +:+
       "    --parameters " +:+
       "        ParameterKey=YourBucketName,ParameterValue=s3-mcp-test-bucket-12345 " +:+
       "        ParameterKey=TrustPolicyAccountIdOne,ParameterValue=" +:+ trustAccountOne_ +:+ " " +:+
       "        ParameterKey=TrustPolicyAccountIdTwo,ParameterValue=" +:+ trustAccountTwo_ +:+ " " +:+
       "    --capabilities CAPABILITY_NAMED_IAM \" +:+ LF +:+
       "    --region " +:+ region_).

Definition wait_command (waitCommand : string) (region : value) : M string :=
  region_ <- text region ;;
  ret ("aws cloudformation wait " +:+ waitCommand +:+ " --stack-name " +:+ STACK_NAME
       +:+ " --region " +:+ region_).

Definition outputs_command (region : value) : M string :=
  region_ <- text region ;;
  ret ("aws cloudformation describe-stacks --stack-name " +:+ STACK_NAME
       +:+ " --query 'Stacks[0].Outputs' --output json --region " +:+ region_).

Definition outputsFile : path := path_join (scripts_dir rt) [".."; "outputs.json"].

(** [outputsData.forEach(output => console.log(...))]. *)
Fixpoint display_each (outputsData : list json) : M unit :=
  match outputsData with
  | [] => ret tt
  | output :: rest =>
      key <- prop output "OutputKey" ;;
      key_ <- text key ;;
      value <- prop output "OutputValue" ;;
      value_ <- text value ;;
      console_log (key_ +:+ ": " +:+ value_) ;;;
      display_each rest
  end.

(** The closing display: [outputsData && outputsData.length > 0] selects the
    listing, which only an array can give. *)
Definition display (outputsData : json) : M unit :=
  console_log "\n📊 Stack Outputs:" ;;;
  match outputsData with
  | JArr [] => console_log "No outputs found"
  | JArr l => display_each l
  | JStr s =>
      if String.eqb s "" then console_log "No outputs found"
      else throw (TypeError "outputsData.forEach is not a function")
  | JObj fs =>
      some <- lift (gt rt (assoc "length" fs) 0) ;;
      if some : bool
      then throw (TypeError "outputsData.forEach is not a function")
      else console_log "No outputs found"
  | _ => console_log "No outputs found"
  end.

(** The four option chains at the head of [deployStack]. *)
Definition resolve_bucketName (options : deploy_options) (previousOutputs : object) : value :=
  JS.or (JS.or (opt (bucketName options)) (getenv "BUCKET_NAME"))
        (field previousOutputs "BucketName").

Definition resolve_region (options : deploy_options) (previousOutputs : object) : value :=
  JS.or (JS.or (JS.or (opt (region options)) (getenv "AWS_DEFAULT_REGION"))
               (field previousOutputs "Region"))
        (str "us-east-1").

Definition resolve_trustAccountOne (options : deploy_options) (previousOutputs : object) : value :=
  JS.or (JS.or (JS.or (opt (trustAccountOne options)) (getenv "TRUST_ACCOUNT_ONE"))
               (field previousOutputs "TrustPolicyAccountIdOne"))
        (str "690332314549").

Definition resolve_trustAccountTwo (options : deploy_options) (previousOutputs : object) : value :=
  JS.or (JS.or (JS.or (opt (trustAccountTwo options)) (getenv "TRUST_ACCOUNT_TWO"))
               (field previousOutputs "TrustPolicyAccountIdTwo"))
        (str "332134949057").

(** The last part of [deployStack], "Get and display outputs regardless of
    whether there were updates": fetch the stack outputs, parse them, write
    them to outputs.json and list them. *)
Definition persist_outputs (region : value) : M unit :=
  command <- outputs_command region ;;
  outputs <- execCommand command "Getting stack outputs..." ;;
  outputsData <-
    match JSON_parse rt outputs with
    | inr data => ret data
    | inl error =>
        console_error ("Error parsing stack outputs JSON: " +:+ message error) ;;;
        exit 1
    end ;;
  try_catch
    (fs_writeFileSync rt outputsFile (JSON_stringify rt outputsData) ;;;
     log ("📄 Stack outputs written to: " +:+ path_text outputsFile))
    (fun error =>
       console_error ("Error writing outputs file: " +:+ message error) ;;;
       exit 1) ;;;
  display outputsData.

(** The body of [deployStack] below the four [const] declarations. *)
Definition deploy_resolved (bucketName region trustAccountOne trustAccountTwo : value) : M unit :=
  log ("Deploying stack: " +:+ STACK_NAME) ;;;
  bucketName_ <- text bucketName ;;
  log ("Using bucket name: " +:+ bucketName_) ;;;
  region_ <- text region ;;
  log ("Using region: " +:+ region_) ;;;
  console_log rule ;;;
  log "Vendia Trust Relationship AWS Accounts:" ;;;
  trustAccountOne_ <- text trustAccountOne ;;
  log ("Using trust account one: " +:+ trustAccountOne_) ;;;
  trustAccountTwo_ <- text trustAccountTwo ;;
  log ("Using trust account two: " +:+ trustAccountTwo_) ;;;
  console_log "https://docs.vendia.com/platform/vendia-mcp-server/storage-connections/" ;;;
  console_log rule ;;;
  log ("Using template: " +:+ TEMPLATE_FILE) ;;;
  exists_ <- stackExists STACK_NAME region ;;
  let operation := if exists_ : bool then "update-stack" else "create-stack" in
  let operationText := if exists_ : bool then "Updating" else "Creating" in
  command <- stack_command operation trustAccountOne trustAccountTwo region ;;
  (if negb (truthy trustAccountOne) || negb (truthy trustAccountTwo) then
     console_error "❌ Error: AWS account IDs for Trusted Relationships are required" ;;;
     console_log trust_policy_example ;;;
     throw (Error "Error" "AWS account IDs for Trusted Relationships are required")
   else ret tt) ;;;
  result <- execCommandSafe command (operationText +:+ " CloudFormation stack...") ;;
  match result with
  | ExecFailed error =>
      if present (exec_stderr error)
         && includes (shown (exec_stderr error)) "No updates are to be performed"
      then log "ℹ️  No updates are needed - stack is already up to date!"
      else
        console_error ("Error: " +:+ exec_message error) ;;;
        when (present (exec_stdout error)) (console_log ("STDOUT: " +:+ shown (exec_stdout error))) ;;;
        when (present (exec_stderr error)) (console_error ("STDERR: " +:+ shown (exec_stderr error))) ;;;
        exit 1
  | ExecOk _ =>
      let waitCommand := if exists_ : bool then "stack-update-complete" else "stack-create-complete" in
      log "Waiting for stack operation to complete..." ;;;
      command <- wait_command waitCommand region ;;
      execCommand command "Waiting for stack operation to complete..." ;;;
      log "✅ Stack deployment completed successfully!"
  end ;;;
  persist_outputs region.

Definition deployStack (options : deploy_options) : M unit :=
  previousOutputs <- ReadOutputs.readOutputs rt ;;
  console_log (inspect rt previousOutputs) ;;;
  deploy_resolved
    (resolve_bucketName options previousOutputs)
    (resolve_region options previousOutputs)
    (resolve_trustAccountOne options previousOutputs)
    (resolve_trustAccountTwo options previousOutputs).

Definition main (args : list string) : M unit :=
  options <- parseArgs args ;;
  log "Starting S3 MCP infrastructure deployment..." ;;;
  checkAWSCLI ;;;
  checkAWSCredentials ;;;
  deployStack options ;;;
  log "🎉 StackDeployment completed successfully!".

End WithRuntime.
End Deploy.

(** ** teardown.js *)

Module Teardown.

Record teardown_options : Type := Options {
  region : option string;
  force : bool
}.

Section WithRuntime.
Variable rt : runtime.

Definition STACK_NAME : string := "s3-mcp-infrastructure".

Definition opt (o : option string) : value := JStr <$> o.

Definition usage : string :=
  join LF
    [ "";
      "Usage: node teardown.js [options]";
      "";
      "Options:";
      "  --region <region>                    AWS region (default: us-east-1)";
      "  --force, -f                          Skip confirmation prompts";
      "  --help, -h                           Show this help message";
      "";
      "Environment Variables:";
      "  AWS_DEFAULT_REGION                   AWS region (overridden by --region)";
      "        " ].

Fixpoint parseArgs_loop (args : list string) (options : teardown_options) : M teardown_options :=
  match args with
  | [] => ret options
  | arg :: rest =>
      if String.eqb arg "--region" then
        match rest with
        | [] => ret (Options None (force options))
        | v :: rest' => parseArgs_loop rest' (Options (Some v) (force options))
        end
      else if String.eqb arg "--force" || String.eqb arg "-f" then
        parseArgs_loop rest (Options (region options) true)
      else if String.eqb arg "--help" || String.eqb arg "-h" then
        console_log usage ;;; exit 0
      else parseArgs_loop rest options
  end.

Definition parseArgs (args : list string) : M teardown_options :=
  parseArgs_loop args (Options (Some "us-east-1") false).

Definition log (message : string) : M unit :=
  console_log ("[TEARDOWN] " +:+ message).

Definition execCommand (command description : string) : M string :=
  log description ;;;
  r <- run rt command ;;
  match r with
  | ExecOk result => ret result
  | ExecFailed error =>
      console_error ("Error: " +:+ exec_message error) ;;;
      when (present (exec_stdout error)) (console_log ("STDOUT: " +:+ shown (exec_stdout error))) ;;;
      when (present (exec_stderr error)) (console_error ("STDERR: " +:+ shown (exec_stderr error))) ;;;
      exit 1
  end.

Definition execCommandSafe (command description : string) : M exec_result :=
  log description ;;;
  run rt command.

Definition checkAWSCLI : M unit :=
  r <- run rt "aws --version" ;;
  match r with
  | ExecOk _ => log "AWS CLI is installed and available"
  | ExecFailed _ =>
      console_error "Error: AWS CLI is not installed or not available in PATH" ;;;
      console_error "Please install AWS CLI: https://docs.aws.amazon.com/cli/latest/userguide/getting-started-install.html" ;;;
      exit 1
  end.

Definition checkAWSCredentials : M unit :=
  r <- run rt "aws sts get-caller-identity" ;;
  match r with
  | ExecOk _ => log "AWS credentials are configured"
  | ExecFailed _ =>
      console_error "Error: AWS credentials are not configured" ;;;
      console_error "Please configure AWS credentials using: aws configure" ;;;
      exit 1
  end.

Definition describe_command (stackName : string) (region : value) : M string :=
  region_ <- text region ;;
  ret ("aws cloudformation describe-stacks --stack-name " +:+ stackName
       +:+ " --region " +:+ region_).

(** The command line is put together inside the [try]: a region that has no
    text counts as a stack that does not exist. *)
Definition stackExists (stackName : string) (region : value) : M bool :=
  try_catch
    (command <- describe_command stackName region ;;
     r <- run rt command ;;
     match r with
     | ExecOk _ => ret true
     | ExecFailed _ => ret false
     end)
    (fun _ => ret false).

Definition list_command (bucketName region : value) : M string :=
  bucketName_ <- text bucketName ;;
  region_ <- text region ;;
  ret ("aws s3api list-object-versions --bucket " +:+ bucketName_
       +:+ " --region " +:+ region_).

(** The delete-object command line for one entry of the listing. *)
Definition delete_command (bucketName : value) (entry : json) (region : value) : M string :=
  bucketName_ <- text bucketName ;;
  key <- prop entry "Key" ;;
  key_ <- text key ;;
  versionId <- prop entry "VersionId" ;;
  versionId_ <- text versionId ;;
  region_ <- text region ;;
  ret ("aws s3api delete-object --bucket " +:+ bucketName_
       +:+ " --key " +:+ DQ +:+ key_ +:+ DQ
       +:+ " --version-id " +:+ versionId_
       +:+ " --region " +:+ region_).

(** [`Deleting version: ${version.Key} (${version.VersionId})`]; [what] is
    ["version"] or ["delete marker"]. *)
Definition delete_description (what : string) (entry : json) : M string :=
  key <- prop entry "Key" ;;
  key_ <- text key ;;
  versionId <- prop entry "VersionId" ;;
  versionId_ <- text versionId ;;
  ret ("Deleting " +:+ what +:+ ": " +:+ key_ +:+ " (" +:+ versionId_ +:+ ")").

(** One turn of a [for (const version of versions)] loop. *)
Definition delete_entry (what : string) (bucketName region : value) (entry : json) : M unit :=
  deleteCmd <- delete_command bucketName entry region ;;
  description <- delete_description what entry ;;
  execCommandSafe deleteCmd description ;;;
  ret tt.

Fixpoint for_of (body : json -> M unit) (l : list json) : M unit :=
  match l with
  | [] => ret tt
  | x :: l' => body x ;;; for_of body l'
  end.

(** [if (xs.length > 0) { for (const x of xs) ... }], [xs] being the
    variable [versions] or [deleteMarkers]: an array is walked, a text is
    walked character by character, anything else with a positive [length]
    cannot be iterated. *)
Definition delete_all (what variable : string) (bucketName region : value) (xs : json)
  : M unit :=
  match xs with
  | JArr l => for_of (delete_entry what bucketName region) l
  | JStr s => for_of (delete_entry what bucketName region) (map JStr (code_points s))
  | _ =>
      length <- prop xs "length" ;;
      some <- lift (gt rt length 0) ;;
      if some : bool
      then throw (TypeError (variable +:+ " is not iterable"))
      else ret tt
  end.

(** [versions.length + deleteMarkers.length === 0]. *)
Definition none_listed (versions deleteMarkers : json) : M bool :=
  match versions, deleteMarkers with
  | JArr v, JArr m => ret (bool_decide (length v + length m = 0)%nat)
  | _, _ =>
      versions_length <- prop versions "length" ;;
      deleteMarkers_length <- prop deleteMarkers "length" ;;
      lift (sum_zero rt versions_length deleteMarkers_length)
  end.

(** [x || []]. *)
Definition or_empty (x : value) : json :=
  match JS.or x (Some (JArr [])) with
  | Some j => j
  | None => JArr []
  end.

Definition clearS3Bucket (bucketName region : value) : M unit :=
  bucketName_ <- text bucketName ;;
  log ("Clearing S3 bucket: " +:+ bucketName_) ;;;
  try_catch
    (listCommand <- list_command bucketName region ;;
     listResult <- execCommandSafe listCommand
                     "Listing all object versions and delete markers..." ;;
     match listResult with
     | ExecFailed _ => log "Bucket appears to be empty or does not exist"
     | ExecOk result =>
         listData <- lift (JSON_parse rt result) ;;
         versions_ <- prop listData "Versions" ;;
         deleteMarkers_ <- prop listData "DeleteMarkers" ;;
         let versions := or_empty versions_ in
         let deleteMarkers := or_empty deleteMarkers_ in
         none <- none_listed versions deleteMarkers ;;
         if none : bool then log "Bucket is already empty"
         else
           versions_length <- prop versions "length" ;;
           versions_length_ <- text versions_length ;;
           deleteMarkers_length <- prop deleteMarkers "length" ;;
           deleteMarkers_length_ <- text deleteMarkers_length ;;
           log ("Found " +:+ versions_length_ +:+ " object version(s) and "
                +:+ deleteMarkers_length_ +:+ " delete marker(s) to remove") ;;;
           delete_all "version" "versions" bucketName region versions ;;;
           delete_all "delete marker" "deleteMarkers" bucketName region deleteMarkers ;;;
           log "‚úÖ S3 bucket cleared successfully"
     end)
    (fun error =>
       console_error ("Error clearing S3 bucket: " +:+ message error) ;;;
       throw error).

Definition delete_stack_command (stackName : string) (region : value) : M string :=
  region_ <- text region ;;
  ret ("aws cloudformation delete-stack --stack-name " +:+ stackName
       +:+ " --region " +:+ region_).

Definition wait_delete_command (stackName : string) (region : value) : M string :=
  region_ <- text region ;;
  ret ("aws cloudformation wait stack-delete-complete --stack-name " +:+ stackName
       +:+ " --region " +:+ region_).

Definition deleteStack (stackName : string) (region : value) : M unit :=
  log ("Deleting CloudFormation stack: " +:+ stackName) ;;;
  deleteCommand <- delete_stack_command stackName region ;;
  result <- execCommandSafe deleteCommand "Initiating stack deletion..." ;;
  match result with
  | ExecFailed error =>
      console_error ("Error deleting stack: " +:+ exec_message error) ;;;
      when (present (exec_stderr error)) (console_error ("STDERR: " +:+ shown (exec_stderr error))) ;;;
      throw (Error "Error" "Failed to delete CloudFormation stack")
  | ExecOk _ => ret tt
  end ;;;
  log "Waiting for stack deletion to complete..." ;;;
  command <- wait_delete_command stackName region ;;
  execCommand command "Waiting for stack deletion to complete..." ;;;
  log "‚úÖ CloudFormation stack deleted successfully".

Definition outputsFile : path := path_join (scripts_dir rt) [".."; "outputs.json"].

Definition cleanupOutputs : M unit :=
  try_catch
    (present_ <- fs_existsSync outputsFile ;;
     if present_ : bool then
       fs_unlinkSync rt outputsFile ;;;
       log "üìÑ Cleaned up outputs.json file"
     else ret tt)
    (fun error => console_error ("Error cleaning up outputs file: " +:+ message error)).

(** [rl.question(prompt, ...)]. *)
Definition ask (prompt : string) : M string :=
  fun p =>
    (Ret (question rt (trace p) prompt),
     Proc (trace p ++ [Question prompt]) (console p) (files p)).

Definition confirmTeardown (options : teardown_options) : M bool :=
  if force options then ret true
  else
    console_log (LF +:+ "‚ö†Ô∏è  WARNING: This will permanently delete:") ;;;
    console_log "   - All objects in the S3 bucket" ;;;
    console_log "   - The CloudFormation stack and all its resources" ;;;
    console_log "   - The IAM role and policies" ;;;
    console_log "   - The S3 bucket itself" ;;;
    console_log (LF +:+ "This action cannot be undone!") ;;;
    answer <- ask (LF +:+ "Are you sure you want to continue? (type " +:+ DQ +:+ "yes" +:+ DQ
                   +:+ " to confirm): ") ;;
    ret (String.eqb (toLowerCase answer) "yes").

Definition resolve_region (options : teardown_options) (previousOutputs : object) : value :=
  JS.or (JS.or (opt (region options)) (field previousOutputs "Region")) (str "us-east-1").

Definition teardown (options : teardown_options) : M unit :=
  previousOutputs <- ReadOutputs.readOutputs rt ;;
  let bucketName := field previousOutputs "BucketName" in
  let region := resolve_region options previousOutputs in
  (if negb (truthy bucketName) then
     console_error "‚ùå Error: Could not determine bucket name from outputs.json" ;;;
     console_error "Please ensure the stack was deployed successfully" ;;;
     exit 1
   else ret tt) ;;;
  log ("Starting teardown for stack: " +:+ STACK_NAME) ;;;
  bucketName_ <- text bucketName ;;
  log ("Using bucket name: " +:+ bucketName_) ;;;
  region_ <- text region ;;
  log ("Using region: " +:+ region_) ;;;
  exists_ <- stackExists STACK_NAME region ;;
  if negb exists_ then
    log "Stack does not exist, nothing to teardown"
  else
    clearS3Bucket bucketName region ;;;
    deleteStack STACK_NAME region ;;;
    cleanupOutputs ;;;
    log "üéâ Teardown completed successfully!".

Definition main (args : list string) : M unit :=
  options <- parseArgs args ;;
  log "Starting S3 MCP infrastructure teardown..." ;;;
  checkAWSCLI ;;;
  checkAWSCredentials ;;;
  confirmed <- confirmTeardown options ;;
  (if negb confirmed then
     log "Teardown cancelled by user" ;;; exit 0
   else ret tt) ;;;
  teardown options.

End WithRuntime.
End Teardown.

(** ** The seed script *)

(** *** Regular expressions

    The fragment the bucket-name pattern uses: character classes, sequence
    and bounded repetition, matched against the whole text (the pattern is
    anchored by [^] and [$]) by derivatives. *)

Inductive regex : Type :=
| Nothing
| Empty
| Class (accepts : ascii -> bool)
| Seq (r1 r2 : regex)
| Alt (r1 r2 : regex)
| Repeat (min max : nat) (r : regex).

Fixpoint nullable (r : regex) : bool :=
  match r with
  | Nothing => false
  | Empty => true
  | Class _ => false
  | Seq r1 r2 => nullable r1 && nullable r2
  | Alt r1 r2 => nullable r1 || nullable r2
  | Repeat min _ r => match min with O => true | S _ => nullable r end
  end.

Fixpoint derive (c : ascii) (r : regex) : regex :=
  match r with
  | Nothing => Nothing
  | Empty => Nothing
  | Class accepts => if accepts c then Empty else Nothing
  | Seq r1 r2 =>
      if nullable r1 then Alt (Seq (derive c r1) r2) (derive c r2)
      else Seq (derive c r1) r2
  | Alt r1 r2 => Alt (derive c r1) (derive c r2)
  | Repeat min max r =>
      match max with
      | O => Nothing
      | S max' => Seq (derive c r) (Repeat (Nat.pred min) max' r)
      end
  end.

Fixpoint matches (r : regex) (s : string) : bool :=
  match s with
  | EmptyString => nullable r
  | String c s' => matches (derive c r) s'
  end.

Definition in_range (lo hi : ascii) (c : ascii) : bool :=
  (nat_of_ascii lo <=? nat_of_ascii c)%nat && (nat_of_ascii c <=? nat_of_ascii hi)%nat.

Module Seed.

Record seed_file : Type := SeedFile {
  localPath : path;
  fileName : string;
  size : nat
}.

(** What [uploadFileToS3] returns: [etag] on success, [error] on failure. *)
Record upload_result : Type := UploadResult {
  r_fileName : string;
  success : bool;
  etag : option string;
  error_text : option string;
  r_size : nat
}.

Section WithRuntime.
Variable rt : runtime.
Variable env : gmap string string.   (* process.env *)

Definition getenv (k : string) : value := JStr <$> (env !! k).

Definition SEED_DIRECTORY : path := path_join (scripts_dir rt) [".."; "seed"].
Definition DEFAULT_REGION : string := "us-east-1".

(** [createS3Client(region = DEFAULT_REGION)]: the default stands in for an
    [undefined] argument only. *)
Definition createS3Client (region : value) : s3_config :=
  let region := match region with None => str DEFAULT_REGION | Some _ => region end in
  S3Config
    (JS.or (getenv "AWS_REGION") region)
    (match env !! "AWS_ACCESS_KEY_ID", env !! "AWS_SECRET_ACCESS_KEY" with
     | Some id, Some secret =>
         if negb (String.eqb id "") && negb (String.eqb secret "") then
           Some (id, secret,
                 match env !! "AWS_SESSION_TOKEN" with
                 | Some t => if String.eqb t "" then None else Some t
                 | None => None
                 end)
         else None
     | _, _ => None
     end).

(** [s3Client.send(command)]. *)
Definition send (command : event) : M (option string) :=
  fun p =>
    let p' := Proc (trace p ++ [command]) (console p) (files p) in
    match s3_send rt (trace p) command with
    | inl e => (Throw e, p')
    | inr response => (Ret response, p')
    end.

Fixpoint stat_each (directory : path) (entries : list dirent) : error + list seed_file :=
  match entries with
  | [] => inr []
  | entry :: rest =>
      match d_stat entry with
      | inl e => inl e
      | inr (isFile, size) =>
          match stat_each directory rest with
          | inl e => inl e
          | inr filePaths =>
              inr (if isFile : bool
                   then SeedFile (path_join directory [d_name entry]) (d_name entry) size :: filePaths
                   else filePaths)
          end
      end
  end.

Definition getFilesFromDirectory (directory : path) : M (list seed_file) :=
  try_catch
    (files <- lift (readdir rt directory) ;;
     lift (stat_each directory files))
    (fun error =>
       throw (Error "Error" ("Failed to read directory " +:+ path_text directory +:+ ": "
                             +:+ message error))).

(** [path.extname] of a name without slashes: from the last dot on, unless
    there is none, the name starts with it, or the name is [..]. *)
Fixpoint last_dot (s : string) : option string :=
  match s with
  | EmptyString => None
  | String c s' =>
      match last_dot s' with
      | Some ext => Some ext
      | None => if Ascii.eqb c "." then Some s else None
      end
  end.

Definition extname (fileName : string) : string :=
  match fileName with
  | EmptyString => ""
  | String _ rest =>
      if String.eqb fileName ".." then ""
      else match last_dot rest with
           | Some ext => ext
           | None => ""
           end
  end.

Definition contentTypes : list (string * string) :=
  [ (".csv", "text/csv");
    (".json", "application/json");
    (".txt", "text/plain");
    (".pdf", "application/pdf");
    (".png", "image/png");
    (".jpg", "image/jpeg");
    (".jpeg", "image/jpeg");
    (".xml", "application/xml") ].

Fixpoint lookup_type (ext : string) (table : list (string * string)) : option string :=
  match table with
  | [] => None
  | (k, v) :: table' => if String.eqb ext k then Some v else lookup_type ext table'
  end.

Definition getContentType (fileName : string) : string :=
  let ext := toLowerCase (extname fileName) in
  match lookup_type ext contentTypes with
  | Some t => t
  | None => "application/octet-stream"
  end.

(** [parseFloat(x.toFixed(2))] shown as text, for [x = bytes / 1024^i]: the
    quotient is exact (the sizes [fs.stat] reports are below 2^53 and the
    divisor is a power of two), [toFixed] rounds it to hundredths, half up,
    and [parseFloat] drops the zeros at the end. *)
Definition hundredths (bytes i : nat) : nat :=
  (200 * bytes + 1024 ^ i) / (2 * 1024 ^ i).

Definition two_places (n : nat) : string :=
  let whole := (n / 100)%nat in
  let part := (n mod 100)%nat in
  decimal whole +:+
  (if (part =? 0)%nat then ""
   else if (part mod 10 =? 0)%nat then "." +:+ decimal (part / 10)
   else if (part <? 10)%nat then ".0" +:+ decimal part
   else "." +:+ decimal part).

Definition sizes : list string := ["Bytes"; "KB"; "MB"; "GB"].

Definition formatBytes (bytes : nat) : string :=
  if (bytes =? 0)%nat then "0 Bytes"
  else
    let i := magnitude rt bytes in
    two_places (hundredths bytes i) +:+ " " +:+ shown_text (nth_error sizes i).

Definition uploadFileToS3 (s3Client : s3_config) (bucketName : value) (file : seed_file)
  : M upload_result :=
  try_catch
    (console_log ("📤 Uploading " +:+ fileName file +:+ " (" +:+ formatBytes (size file) +:+ ")...") ;;;
     fileContent <- fs_readFile (localPath file) ;;
     uploadDate <- (fun p => (Ret (now rt (trace p)), p)) ;;
     response <- send (PutObject s3Client bucketName (fileName file) fileContent
                         (getContentType (fileName file))
                         [("upload-date", uploadDate); ("original-size", decimal (size file))]) ;;
     console_log ("✅ Successfully uploaded " +:+ fileName file) ;;;
     ret (UploadResult (fileName file) true response None (size file)))
    (fun error =>
       console_error ("❌ Failed to upload " +:+ fileName file +:+ ": " +:+ message error) ;;;
       ret (UploadResult (fileName file) false None (Some (message error)) (size file))).

Definition checkBucketAccess (s3Client : s3_config) (bucketName : value) : M bool :=
  try_catch
    (send (ListObjectsV2 s3Client bucketName 1) ;;;
     ret true)
    (fun error =>
       if String.eqb (name error) "NoSuchBucket" then
         bucketName_ <- text bucketName ;;
         throw (Error "Error" ("Bucket '" +:+ bucketName_ +:+ "' does not exist"))
       else if String.eqb (name error) "AccessDenied" then
         bucketName_ <- text bucketName ;;
         throw (Error "Error" ("Access denied to bucket '" +:+ bucketName_
                               +:+ "'. Check your AWS credentials and permissions."))
       else
         bucketName_ <- text bucketName ;;
         throw (Error "Error" ("Cannot access bucket '" +:+ bucketName_ +:+ "': "
                               +:+ message error))).

(** The upload loop: [results.push(await uploadFileToS3(...))] per file. *)
Fixpoint upload_each (s3Client : s3_config) (bucketName : value) (files : list seed_file)
  : M (list upload_result) :=
  match files with
  | [] => ret []
  | file :: rest =>
      result <- uploadFileToS3 s3Client bucketName file ;;
      results <- upload_each s3Client bucketName rest ;;
      ret (result :: results)
  end.

Fixpoint for_each {A} (body : A -> M unit) (l : list A) : M unit :=
  match l with
  | [] => ret tt
  | x :: l' => body x ;;; for_each body l'
  end.

Definition successful_of (results : list upload_result) : list upload_result :=
  List.filter (fun r => success r) results.

Definition failed_of (results : list upload_result) : list upload_result :=
  List.filter (fun r => negb (success r)) results.

(** The summary printed after the loop. *)
Definition print_summary (results : list upload_result) : M unit :=
  console_log "" ;;;
  console_log "📊 Upload Summary:" ;;;
  console_log "==================" ;;;
  let successful := successful_of results in
  let failed := failed_of results in
  when (0 <? length successful)%nat
    (let totalSize := fold_left (fun sum r => (sum + r_size r)%nat) successful 0%nat in
     console_log ("✅ Successful uploads: " +:+ decimal (length successful)) ;;;
     console_log ("📈 Total uploaded: " +:+ formatBytes totalSize) ;;;
     console_log "" ;;;
     console_log "Successfully uploaded files:" ;;;
     for_each (fun r => console_log ("   ✅ " +:+ r_fileName r +:+ " - ETag: "
                                     +:+ shown_text (etag r)))
       successful) ;;;
  when (0 <? length failed)%nat
    (console_log "" ;;;
     console_log "❌ Failed uploads:" ;;;
     for_each (fun r => console_log ("   ❌ " +:+ r_fileName r +:+ " - Error: "
                                     +:+ shown_text (error_text r)))
       failed) ;;;
  console_log "" ;;;
  console_log (if (length failed =? 0)%nat then "🎉 All files uploaded successfully!"
               else "⚠️  Some uploads failed. Check the errors above.").

Definition uploadToS3 (bucketName : value) (outputs : object) : M unit :=
  console_log "🚀 S3 Upload Script Starting..." ;;;
  console_log ("📁 Source directory: " +:+ path_text SEED_DIRECTORY) ;;;
  bucketName_ <- text bucketName ;;
  console_log ("🪣 Target bucket: " +:+ bucketName_) ;;;
  region_ <- text (JS.or (getenv "AWS_REGION") (str DEFAULT_REGION)) ;;
  console_log ("🌍 Region: " +:+ region_) ;;;
  console_log "" ;;;
  try_catch
    (let s3Client := createS3Client (field outputs "Region") in
     console_log "🔍 Checking bucket access..." ;;;
     checkBucketAccess s3Client bucketName ;;;
     console_log "✅ Bucket is accessible" ;;;
     console_log "" ;;;
     console_log "📂 Scanning seed directory..." ;;;
     files <- getFilesFromDirectory SEED_DIRECTORY ;;
     if (length files =? 0)%nat then
       console_log "⚠️  No files found in seed directory"
     else
       console_log ("📋 Found " +:+ decimal (length files) +:+ " files to upload:") ;;;
       for_each (fun file => console_log ("   - " +:+ fileName file +:+ " ("
                                          +:+ formatBytes (size file) +:+ ")"))
         files ;;;
       console_log "" ;;;
       console_log "📤 Starting uploads..." ;;;
       results <- upload_each s3Client bucketName files ;;
       print_summary results ;;;
       exit (if (length (failed_of results) =? 0)%nat then 0 else 1))
    (fun error =>
       console_error ("💥 Script failed: " +:+ message error) ;;;
       console_error "" ;;;
       console_error "Common solutions:" ;;;
       console_error "1. Check your AWS credentials are set correctly" ;;;
       console_error "2. Verify the bucket name exists and you have access" ;;;
       console_error "3. Ensure AWS_REGION is set if using a non-default region" ;;;
       console_error "4. Check that the seed directory contains files" ;;;
       exit 1).

(** [/^[a-z0-9][a-z0-9-]{1,61}[a-z0-9]$/]. *)
Definition lower_or_digit (c : ascii) : bool :=
  in_range "a" "z" c || in_range "0" "9" c.

Definition bucket_pattern : regex :=
  Seq (Class lower_or_digit)
      (Seq (Repeat 1 61 (Class (fun c => lower_or_digit c || Ascii.eqb c "-")))
           (Class lower_or_digit)).

(** [bucketName.length > 3]. *)
Definition longer_than_3 (bucketName : value) : M bool :=
  match bucketName with
  | Some (JStr s) => ret (3 <? js_length s)%nat
  | Some (JArr l) => ret (3 <? length l)%nat
  | Some j =>
      length <- prop j "length" ;;
      lift (gt rt length 3)
  | None => throw (TypeError "Cannot read properties of undefined")
  end.

(** The script's [main], [args] being [process.argv.slice(2)].  The pattern
    is tested on the text of the name; the length is asked for only when the
    test fails. *)
Definition main (args : list string) : M unit :=
  outputs <- ReadOutputs.readOutputs rt ;;
  let bucketName := JS.or (JStr <$> head args) (field outputs "BucketName") in
  (if negb (truthy bucketName) then
     console_error "❌ Error: Bucket name is required" ;;;
     console_error "" ;;;
     console_error "Usage: node scripts/setup.js <bucket-name>" ;;;
     console_error "" ;;;
     console_error "Example: node scripts/setup.js my-s3-bucket" ;;;
     console_error "" ;;;
     console_error "Required environment variables:" ;;;
     console_error "- AWS_ACCESS_KEY_ID" ;;;
     console_error "- AWS_SECRET_ACCESS_KEY" ;;;
     console_error "- AWS_REGION (optional, defaults to us-east-1)" ;;;
     exit 1
   else ret tt) ;;;
  bucketName_ <- text bucketName ;;
  invalid <- (if negb (matches bucket_pattern bucketName_)
              then longer_than_3 bucketName
              else ret false) ;;
  (if invalid : bool then
     console_error "❌ Error: Invalid bucket name format" ;;;
     console_error "Bucket names must be 3-63 characters long and contain only lowercase letters, numbers, and hyphens" ;;;
     exit 1
   else ret tt) ;;;
  uploadToS3 bucketName outputs.

(** [main().catch(...)] at the bottom of the script (which prints the error
    with its stack; the message stands for it here). *)
Definition script (args : list string) : M unit :=
  try_catch (main args)
    (fun error =>
       console_error ("💥 Unhandled error: " +:+ message error) ;;;
       exit 1).

End WithRuntime.
End Seed.

(** ** A concrete runtime

    A small runtime on which the scripts can be run: [JSON.stringify] with an
    indentation of two, a [JSON.parse] for the texts it writes, and the
    remaining answers supplied per example. *)

Module Demo.

Definition spaces (n : nat) : string := String.concat "" (repeat " " n).

Definition BS : ascii := ascii_of_nat 92.   (* the backslash *)
Definition QUOTE : ascii := ascii_of_nat 34.

Definition hex_digit (n : nat) : ascii :=
  if (n <? 10)%nat then ascii_of_nat (48 + n) else ascii_of_nat (87 + n).

(** A character inside a JSON text: the quote, the backslash and the
    control characters are escaped. *)
Definition escape_char (c : ascii) : string :=
  let n := nat_of_ascii c in
  if (n =? 34)%nat then String BS (String QUOTE "")
  else if (n =? 92)%nat then String BS (String BS "")
  else if (n =? 8)%nat then String BS "b"
  else if (n =? 9)%nat then String BS "t"
  else if (n =? 10)%nat then String BS "n"
  else if (n =? 12)%nat then String BS "f"
  else if (n =? 13)%nat then String BS "r"
  else if (n <? 32)%nat then
    String BS ("u00" +:+ String (hex_digit (n / 16)) (String (hex_digit (n mod 16)) ""))
  else String c "".

Fixpoint escape (s : string) : string :=
  match s with
  | EmptyString => EmptyString
  | String c s' => escape_char c +:+ escape s'
  end.

Definition quoted (s : string) : string := DQ +:+ escape s +:+ DQ.

(** [JSON.stringify(j, null, 2)], [indent] being the indentation reached. *)
Fixpoint stringify (indent : nat) (j : json) : string :=
  match j with
  | JNull => "null"
  | JBool true => "true"
  | JBool false => "false"
  | JNum r => r
  | JStr s => quoted s
  | JArr [] => "[]"
  | JArr l =>
      "[" +:+ LF +:+
      join ("," +:+ LF)
        ((fix items (l : list json) : list string :=
            match l with
            | [] => []
            | x :: l' => (spaces (indent + 2) +:+ stringify (indent + 2) x) :: items l'
            end) l)
      +:+ LF +:+ spaces indent +:+ "]"
  | JObj [] => "{}"
  | JObj fs =>
      "{" +:+ LF +:+
      join ("," +:+ LF)
        ((fix members (fs : list (string * json)) : list string :=
            match fs with
            | [] => []
            | (k, v) :: fs' =>
                (spaces (indent + 2) +:+ quoted k +:+ ": " +:+ stringify (indent + 2) v)
                :: members fs'
            end) fs)
      +:+ LF +:+ spaces indent +:+ "}"
  end.

Definition SyntaxError : error := Error "SyntaxError" "Unexpected token".

(** *** Parsing

    [JSON.parse] by recursive descent, for texts whose numbers are integers
    in the form [Number::toString] gives them and whose [\u] escapes are
    below 80. *)

Definition is_space (c : ascii) : bool :=
  let n := nat_of_ascii c in
  (n =? 32)%nat || (n =? 10)%nat || (n =? 13)%nat || (n =? 9)%nat.

Fixpoint skip_space (s : string) : string :=
  match s with
  | String c s' => if is_space c then skip_space s' else s
  | EmptyString => s
  end.

Definition hex_value (c : ascii) : option nat :=
  let n := nat_of_ascii c in
  if (48 <=? n)%nat && (n <=? 57)%nat then Some (n - 48)%nat
  else if (97 <=? n)%nat && (n <=? 102)%nat then Some (n - 87)%nat
  else if (65 <=? n)%nat && (n <=? 70)%nat then Some (n - 55)%nat
  else None.

Definition push (c : ascii) (r : option (string * string)) : option (string * string) :=
  match r with
  | Some (text, rest) => Some (String c text, rest)
  | None => None
  end.

(** The text of a string literal after its opening quote, and what follows
    the closing quote. *)
Fixpoint unescape (s : string) : option (string * string) :=
  match s with
  | EmptyString => None
  | String c s' =>
      if Ascii.eqb c QUOTE then Some ("", s')
      else if Ascii.eqb c BS then
        match s' with
        | String e s'' =>
            if Ascii.eqb e QUOTE then push QUOTE (unescape s'')
            else if Ascii.eqb e BS then push BS (unescape s'')
            else if Ascii.eqb e "/" then push "/" (unescape s'')
            else if Ascii.eqb e "b" then push (ascii_of_nat 8) (unescape s'')
            else if Ascii.eqb e "t" then push (ascii_of_nat 9) (unescape s'')
            else if Ascii.eqb e "n" then push (ascii_of_nat 10) (unescape s'')
            else if Ascii.eqb e "f" then push (ascii_of_nat 12) (unescape s'')
            else if Ascii.eqb e "r" then push (ascii_of_nat 13) (unescape s'')
            else if Ascii.eqb e "u" then
              match s'' with
              | String h1 (String h2 (String h3 (String h4 rest))) =>
                  match hex_value h3, hex_value h4 with
                  | Some x, Some y =>
                      if Ascii.eqb h1 "0" && Ascii.eqb h2 "0" && (x <? 8)%nat
                      then push (ascii_of_nat (16 * x + y)) (unescape rest)
                      else None
                  | _, _ => None
                  end
              | _ => None
              end
            else None
        | EmptyString => None
        end
      else if (nat_of_ascii c <? 32)%nat then None
      else push c (unescape s')
  end.

Definition is_digit (c : ascii) : bool :=
  (48 <=? nat_of_ascii c)%nat && (nat_of_ascii c <=? 57)%nat.

Fixpoint digits (s : string) : string * string :=
  match s with
  | String c s' =>
      if is_digit c then let (ds, rest) := digits s' in (String c ds, rest)
      else ("", s)
  | EmptyString => ("", s)
  end.

Definition number (s : string) : option (json * string) :=
  let (negative, s1) :=
    match s with
    | String c s' => if Ascii.eqb c "-" then (true, s') else (false, s)
    | EmptyString => (false, s)
    end in
  let (ds, rest) := digits s1 in
  match ds with
  | EmptyString => None
  | String d more =>
      if Ascii.eqb d "0" && negb (String.eqb more "") then None
      else
        match rest with
        | String c _ =>
            if Ascii.eqb c "." || Ascii.eqb c "e" || Ascii.eqb c "E" then None
            else Some (JNum (if negative && negb (String.eqb ds "0") then "-" +:+ ds else ds), rest)
        | EmptyString =>
            Some (JNum (if negative && negb (String.eqb ds "0") then "-" +:+ ds else ds), rest)
        end
  end.

(** [s] without its prefix [word]. *)
Fixpoint after (word s : string) : option string :=
  match word, s with
  | EmptyString, _ => Some s
  | String a word', String b s' => if Ascii.eqb a b then after word' s' else None
  | String _ _, EmptyString => None
  end.

Fixpoint without (k : string) (fs : list (string * json)) : list (string * json) :=
  match fs with
  | [] => []
  | (k', v) :: fs' => if String.eqb k k' then without k fs' else (k', v) :: without k fs'
  end.

(** A member in front of those that follow it: a name that comes again
    keeps its place and takes the later value. *)
Definition member (k : string) (v : json) (fs : list (string * json))
  : list (string * json) :=
  match assoc k fs with
  | Some later => (k, later) :: without k fs
  | None => (k, v) :: fs
  end.

Inductive goal : Type := Value | Items | Members.

Inductive parsed : Type :=
| PValue (j : json)
| PItems (l : list json)
| PMembers (fs : list (string * json)).

(** A value; or the items of an array up to its closing bracket; or the
    members of an object up to its closing brace. *)
Fixpoint parse_at (fuel : nat) (g : goal) (s : string) : option (parsed * string) :=
  match fuel with
  | O => None
  | S fuel =>
      match g, skip_space s with
      | Value, String c s' =>
          if Ascii.eqb c "[" then
            match skip_space s' with
            | String c' r =>
                if Ascii.eqb c' "]" then Some (PValue (JArr []), r)
                else match parse_at fuel Items s' with
                     | Some (PItems l, r') => Some (PValue (JArr l), r')
                     | _ => None
                     end
            | EmptyString => None
            end
          else if Ascii.eqb c "{" then
            match skip_space s' with
            | String c' r =>
                if Ascii.eqb c' "}" then Some (PValue (JObj []), r)
                else match parse_at fuel Members s' with
                     | Some (PMembers fs, r') => Some (PValue (JObj fs), r')
                     | _ => None
                     end
            | EmptyString => None
            end
          else if Ascii.eqb c QUOTE then
            match unescape s' with
            | Some (text, r) => Some (PValue (JStr text), r)
            | None => None
            end
          else
            match after "null" (String c s'), after "true" (String c s'),
                  after "false" (String c s') with
            | Some r, _, _ => Some (PValue JNull, r)
            | _, Some r, _ => Some (PValue (JBool true), r)
            | _, _, Some r => Some (PValue (JBool false), r)
            | None, None, None =>
                match number (String c s') with
                | Some (n, r) => Some (PValue n, r)
                | None => None
                end
            end
      | Items, s =>
          match parse_at fuel Value s with
          | Some (PValue v, r) =>
              match skip_space r with
              | String c r' =>
                  if Ascii.eqb c "," then
                    match parse_at fuel Items r' with
                    | Some (PItems l, r'') => Some (PItems (v :: l), r'')
                    | _ => None
                    end
                  else if Ascii.eqb c "]" then Some (PItems [v], r')
                  else None
              | EmptyString => None
              end
          | _ => None
          end
      | Members, String c s' =>
          if Ascii.eqb c QUOTE then
            match unescape s' with
            | Some (k, r) =>
                match skip_space r with
                | String colon r' =>
                    if Ascii.eqb colon ":" then
                      match parse_at fuel Value r' with
                      | Some (PValue v, r'') =>
                          match skip_space r'' with
                          | String c' r3 =>
                              if Ascii.eqb c' "," then
                                match parse_at fuel Members r3 with
                                | Some (PMembers fs, r4) => Some (PMembers (member k v fs), r4)
                                | _ => None
                                end
                              else if Ascii.eqb c' "}" then Some (PMembers [(k, v)], r3)
                              else None
                          | EmptyString => None
                          end
                      | _ => None
                      end
                    else None
                | EmptyString => None
                end
            | None => None
            end
          else None
      | _, EmptyString => None
      end
  end.

Definition parse (s : string) : error + json :=
  match parse_at (2 * String.length s + 2) Value s with
  | Some (PValue j, rest) =>
      match skip_space rest with
      | EmptyString => inr j
      | String _ _ => inl SyntaxError
      end
  | _ => inl SyntaxError
  end.

(** *** Numbers

    The comparisons of the scripts on the numbers this parser gives
    (integers), on [null], on the booleans and on texts and arrays that
    read as an integer; anything else counts as [NaN].  A sum with a text,
    an array or an object is a text, never 0. *)

Fixpoint digits_value (s : string) (acc : Z) : option Z :=
  match s with
  | EmptyString => Some acc
  | String c s' =>
      if is_digit c then digits_value s' (10 * acc + (Z.of_nat (nat_of_ascii c) - 48))
      else None
  end.

Definition integer (s : string) : option Z :=
  match s with
  | EmptyString => None
  | String c s' =>
      if Ascii.eqb c "-" then
        match s' with
        | EmptyString => None
        | String _ _ => Z.opp <$> digits_value s' 0
        end
      else digits_value s 0
  end.

Definition to_number (j : json) : option Z :=
  match j with
  | JNull => Some 0
  | JBool b => Some (if b then 1 else 0)
  | JNum r => integer r
  | JStr s => if String.eqb s "" then Some 0 else integer s
  | JArr _ =>
      match ToString_json j with
      | Some s => if String.eqb s "" then Some 0 else integer s
      | None => None
      end
  | JObj _ => None
  end.

Definition greater_than (j : json) (n : Z) : bool :=
  match to_number j with
  | Some z => n <? z
  | None => false
  end.

Definition adds_to_zero (j j' : json) : bool :=
  match j, j' with
  | (JNull | JBool _ | JNum _), (JNull | JBool _ | JNum _) =>
      match to_number j, to_number j' with
      | Some z, Some z' => z + z' =? 0
      | _, _ => false
      end
  | _, _ => false
  end.

Definition runtime_of
    (exec : list event -> string -> exec_result)
    (send : list event -> event -> error + option string)
    (dir : error + list dirent) : runtime :=
  {| JSON_parse := parse;
     JSON_stringify := stringify 0;
     execSync := exec;
     s3_send := send;
     question := fun _ _ => "yes";
     writeFileSync := fun _ _ => None;
     unlinkSync := fun _ _ => None;
     readdir := fun _ => dir;
     now := fun _ => "2024-01-01T00:00:00.000Z";
     magnitude := fun bytes => (Nat.log2 bytes / 10)%nat;
     inspect := fun _ => "{}";
     greater := greater_than;
     sum_is_zero := adds_to_zero;
     scripts_dir := ["repo"; "scripts"] |}.

(** A fresh process: nothing called, nothing printed, the given files. *)
Definition start (fs : gmap path file) : proc := Proc [] [] fs.

Definition no_send : list event -> event -> error + option string :=
  fun _ _ => inl (Error "Error" "offline").

(** A world in which every command succeeds with the given output. *)
Definition all_ok (out : string) : list event -> string -> exec_result :=
  fun _ _ => ExecOk out.

(** A world in which the [n]th command fails with [e] and the others
    succeed. *)
Definition fails_at (n : nat) (e : exec_error) (out : string)
  : list event -> string -> exec_result :=
  fun t _ => if (length t =? n)%nat then ExecFailed e else ExecOk out.

End Demo.
(** * Vocabulary of the properties

    The notions the statements below are written in.  None of them is used
    by the scripts. *)

(** ** Runs compared and bounded *)

(** Two processes are in the same world when the same calls have been made
    and the same files exist; the console may differ. *)
Definition same_world (p q : proc) : Prop :=
  trace p = trace q /\ files p = files q.

(** Two computations agree when, started in the same world, they end the
    same way in the same world. *)
Definition agree {A} (m1 m2 : M A) : Prop :=
  forall p q, same_world p q ->
    fst (m1 p) = fst (m2 q) /\ same_world (snd (m1 p)) (snd (m2 q)).

(** A computation extends the calls made: it never forgets one. *)
Definition extends {A} (m : M A) : Prop :=
  forall p, exists rest, trace (snd (m p)) = trace p ++ rest.

(** A computation that throws only errors satisfying [P]. *)
Definition throws_only (P : error -> Prop) {A} (m : M A) : Prop :=
  forall p e, fst (m p) = Throw e -> P e.

(** A computation whose first call is [ev]. *)
Definition calls_first {A} (ev : event) (m : M A) : Prop :=
  forall p, exists rest, trace (snd (m p)) = trace p ++ ev :: rest.

(** A computation that only prints, and what it prints. *)
Definition prints (m : M unit) (lines : list line) : Prop :=
  forall p, m p = (Ret tt, Proc (trace p) (console p ++ lines) (files p)).

(** A computation that calls nothing, writes nothing and does not exit:
    it prints, and returns or throws. *)
Definition quiet {A} (m : M A) : Prop :=
  forall p, exists o c,
    m p = (o, Proc (trace p) c (files p)) /\ forall code, o <> Exit code.

(** ** Values that have a text *)

(** What a template literal shows for a value, when it has a text. *)
Definition shows (v : value) (s : string) : Prop := ToString v = inr s.

(** A value of the record as deploy writes it: a text, or nothing. *)
Definition text_or_absent (v : value) : Prop :=
  v = undefined \/ exists s, v = str s.

(** A record whose values are texts, the mapping from key to text of the
    specification. *)
Definition texts_only (record : object) : Prop :=
  forall k, text_or_absent (field record k).

(** ** Deploy *)

(** The path of the template, stack.yml beside the scripts directory. *)
Definition stack_template (rt : runtime) : string :=
  path_text (path_join (scripts_dir rt) [".."; "stack.yml"]).

(** The probe for the stack, as the shell receives it. *)
Definition probe_command (region : string) : string :=
  "aws cloudformation describe-stacks --stack-name s3-mcp-infrastructure --region "
  +:+ region.

(** The operation the probe selects. *)
Definition operation_at (rt : runtime) (region : string) (p : proc) : string :=
  match execSync rt (trace p) (probe_command region) with
  | ExecOk _ => "update-stack"
  | ExecFailed _ => "create-stack"
  end.

(** The create-stack or update-stack command line, as the shell receives
    it: three lines that end in a backslash, the parameters on the third,
    the two account IDs among them. *)
Definition operation_command (template operation one two region : string) : string :=
  "aws cloudformation " +:+ operation +:+ " \" +:+ LF +:+
  "    --stack-name s3-mcp-infrastructure \" +:+ LF +:+
  "    --template-body file://" +:+ template +:+ " \" +:+ LF +:+
  "    --parameters         ParameterKey=YourBucketName,ParameterValue=s3-mcp-test-bucket-12345 " +:+
  "        ParameterKey=TrustPolicyAccountIdOne,ParameterValue=" +:+ one +:+ " " +:+
  "        ParameterKey=TrustPolicyAccountIdTwo,ParameterValue=" +:+ two +:+ " " +:+
  "    --capabilities CAPABILITY_NAMED_IAM \" +:+ LF +:+
  "    --region " +:+ region.

(** The query for the outputs of the stack. *)
Definition outputs_query (region : string) : string :=
  "aws cloudformation describe-stacks --stack-name s3-mcp-infrastructure --query 'Stacks[0].Outputs' --output json --region "
  +:+ region.

(** Whether the error text a failed command left on stderr contains the
    no-op notice of CloudFormation. *)
Definition no_updates_reported (e : exec_error) : bool :=
  match exec_stderr e with
  | Some text => includes text "No updates are to be performed"
  | None => false
  end.

(** The error [deployStack] throws when an account ID is missing. *)
Definition validation_error : error :=
  Error "Error" "AWS account IDs for Trusted Relationships are required".

(** The precedence the specification states for an option: the flag, else
    the environment variable, else the persisted record, else the default,
    each taken when it is present (not empty). *)
Definition precedence (flag variable record default : value) : value :=
  JS.or (JS.or (JS.or flag variable) record) default.

(** The text a source gives, if it gives one that is not empty. *)
Definition given (source : value) : option string :=
  match source with
  | Some (JStr s) => if String.eqb s "" then None else Some s
  | _ => None
  end.

(** The first text given by the sources in turn, else the default. *)
Fixpoint first_given (sources : list value) (default : string) : string :=
  match sources with
  | [] => default
  | source :: rest =>
      match given source with
      | Some s => s
      | None => first_given rest default
      end
  end.

(** An entry of the stack outputs that the closing display can show. *)
Definition displayable (output : json) : Prop :=
  exists key value k v,
    JS.get output "OutputKey" = Some key /\ shows key k
    /\ JS.get output "OutputValue" = Some value /\ shows value v.

(** An entry of the stack outputs holding the pair of a key and a value,
    whatever else it holds (a description, an export name). *)
Definition output_of (output : json) (pair : string * json) : Prop :=
  JS.get output "OutputKey" = Some (str (fst pair))
  /\ JS.get output "OutputValue" = Some (Some (snd pair)).

(** The name of a stack output is a logical ID of the template: letters and
    digits. *)
Definition letter_or_digit (c : ascii) : bool :=
  let n := nat_of_ascii c in
  ((48 <=? n) && (n <=? 57) || (65 <=? n) && (n <=? 90) || (97 <=? n) && (n <=? 122))%nat.

Fixpoint alphanumeric (s : string) : bool :=
  match s with
  | EmptyString => true
  | String c s' => letter_or_digit c && alphanumeric s'
  end.

(** The value of the last pair written under a key. *)
Fixpoint last_written (k : string) (pairs : list (string * json)) : option json :=
  match pairs with
  | [] => None
  | (k', v) :: rest =>
      match last_written k rest with
      | Some v' => Some v'
      | None => if String.eqb k k' then Some v else None
      end
  end.

(** ** Teardown *)

(** The entries the listing holds under a name: those of the array found
    there, none when there is nothing there. *)
Definition listed_under (listData : json) (name : string) (entries : list json) : Prop :=
  exists v,
    JS.get listData name = Some v
    /\ (v = Some (JArr entries) \/ (truthy v = false /\ entries = [])).

(** An entry of the listing with the texts of its [Key] and [VersionId]. *)
Definition keyed (entry : json) (key_id : string * string) : Prop :=
  exists key id,
    JS.get entry "Key" = Some key /\ shows key (fst key_id)
    /\ JS.get entry "VersionId" = Some id /\ shows id (snd key_id).

(** The delete-object call for a key and a version of it, as the shell
    receives it. *)
Definition delete_object (bucket region : string) (key_id : string * string) : event :=
  Exec ("aws s3api delete-object --bucket " +:+ bucket
        +:+ " --key " +:+ DQ +:+ fst key_id +:+ DQ
        +:+ " --version-id " +:+ snd key_id
        +:+ " --region " +:+ region).

(** ** Seed *)

Definition read_file (fs : gmap path file) (f : path) : error + string :=
  match fs !! f with
  | None => inl (ENOENT f)
  | Some (Unreadable e) => inl e
  | Some (Content text) => inr text
  end.

(** The put request for a file, sent after the calls [t]. *)
Definition put_request (rt : runtime) (cfg : s3_config) (bucketName : value)
    (t : list event) (file : Seed.seed_file) (content : string) : event :=
  PutObject cfg bucketName (Seed.fileName file) content
    (Seed.getContentType (Seed.fileName file))
    [("upload-date", now rt t); ("original-size", decimal (Seed.size file))].

(** What happens to each file in turn: the error of reading or sending it,
    or the entity tag of the response, if it has one.  A file that cannot be
    read is not sent. *)
Fixpoint upload_outcomes (rt : runtime) (cfg : s3_config) (bucketName : value)
    (fs : gmap path file) (t : list event) (seed_files : list Seed.seed_file)
  : list (Seed.seed_file * (error + option string)) :=
  match seed_files with
  | [] => []
  | file :: rest =>
      match read_file fs (Seed.localPath file) with
      | inl e => (file, inl e) :: upload_outcomes rt cfg bucketName fs t rest
      | inr content =>
          (file, s3_send rt t (put_request rt cfg bucketName t file content))
          :: upload_outcomes rt cfg bucketName fs
               (t ++ [put_request rt cfg bucketName t file content]) rest
      end
  end.

(** The put requests sent on the way, one per file that could be read. *)
Fixpoint upload_requests (rt : runtime) (cfg : s3_config) (bucketName : value)
    (fs : gmap path file) (t : list event) (seed_files : list Seed.seed_file)
  : list event :=
  match seed_files with
  | [] => []
  | file :: rest =>
      match read_file fs (Seed.localPath file) with
      | inl _ => upload_requests rt cfg bucketName fs t rest
      | inr content =>
          put_request rt cfg bucketName t file content
          :: upload_requests rt cfg bucketName fs
               (t ++ [put_request rt cfg bucketName t file content]) rest
      end
  end.

Definition upload_failed (outcome : Seed.seed_file * (error + option string)) : bool :=
  match snd outcome with
  | inl _ => true
  | inr _ => false
  end.

Definition uploaded (outcome : Seed.seed_file * (error + option string)) : bool :=
  negb (upload_failed outcome).

(** The outcomes of a seed run started in [p], and its put requests: the
    uploads follow the one call that checks the bucket. *)
Definition seed_outcomes (rt : runtime) (env : gmap string string) (bucketName : value)
    (outputs : object) (p : proc) (seed_files : list Seed.seed_file)
  : list (Seed.seed_file * (error + option string)) :=
  upload_outcomes rt (Seed.createS3Client env (field outputs "Region")) bucketName
    (files p)
    (trace p ++ [ListObjectsV2 (Seed.createS3Client env (field outputs "Region")) bucketName 1])
    seed_files.

Definition seed_requests (rt : runtime) (env : gmap string string) (bucketName : value)
    (outputs : object) (p : proc) (seed_files : list Seed.seed_file) : list event :=
  upload_requests rt (Seed.createS3Client env (field outputs "Region")) bucketName
    (files p)
    (trace p ++ [ListObjectsV2 (Seed.createS3Client env (field outputs "Region")) bucketName 1])
    seed_files.

(** The result the upload loop is to hold for an outcome. *)
Definition result_of (outcome : Seed.seed_file * (error + option string))
  : Seed.upload_result :=
  match outcome with
  | (file, inl e) =>
      Seed.UploadResult (Seed.fileName file) false None (Some (message e)) (Seed.size file)
  | (file, inr etag) =>
      Seed.UploadResult (Seed.fileName file) true etag None (Seed.size file)
  end.

(** What the run prints while it uploads a file. *)
Definition progress_lines (rt : runtime)
    (outcome : Seed.seed_file * (error + option string)) : list line :=
  Out ("📤 Uploading " +:+ Seed.fileName (fst outcome) +:+ " ("
       +:+ Seed.formatBytes rt (Seed.size (fst outcome)) +:+ ")...")
  :: match snd outcome with
     | inl e => [Err ("❌ Failed to upload " +:+ Seed.fileName (fst outcome) +:+ ": "
                      +:+ message e)]
     | inr _ => [Out ("✅ Successfully uploaded " +:+ Seed.fileName (fst outcome))]
     end.

(** The line of the summary for an upload that went through, with its
    entity tag, and for one that failed, with the text of its error. *)
Definition uploaded_line (outcome : Seed.seed_file * (error + option string)) : line :=
  Out ("   ✅ " +:+ Seed.fileName (fst outcome) +:+ " - ETag: "
       +:+ match snd outcome with
           | inr (Some tag) => tag
           | _ => "undefined"
           end).

Definition failed_line (outcome : Seed.seed_file * (error + option string)) : line :=
  Out ("   ❌ " +:+ Seed.fileName (fst outcome) +:+ " - Error: "
       +:+ match snd outcome with
           | inl e => message e
           | inr _ => "undefined"
           end).

Definition total_size (outcomes : list (Seed.seed_file * (error + option string))) : nat :=
  list_sum (map (fun outcome => Seed.size (fst outcome)) outcomes).

(** The summary for the outcomes of a run: the uploads that went through,
    when there are any, then those that failed, when there are any, each
    with one line per file, and the closing line. *)
Definition summary_lines (rt : runtime)
    (outcomes : list (Seed.seed_file * (error + option string))) : list line :=
  [Out ""; Out "📊 Upload Summary:"; Out "=================="]
  ++ match List.filter uploaded outcomes with
     | [] => []
     | done =>
         [ Out ("✅ Successful uploads: " +:+ decimal (length done));
           Out ("📈 Total uploaded: " +:+ Seed.formatBytes rt (total_size done));
           Out "";
           Out "Successfully uploaded files:" ]
         ++ map uploaded_line done
     end
  ++ match List.filter upload_failed outcomes with
     | [] => []
     | failed => [Out ""; Out "❌ Failed uploads:"] ++ map failed_line failed
     end
  ++ [ Out "";
       Out (match List.filter upload_failed outcomes with
            | [] => "🎉 All files uploaded successfully!"
            | _ => "⚠️  Some uploads failed. Check the errors above."
            end) ].

(** What a seed run prints before it uploads: the heading, the check of the
    bucket and the files found. *)
Definition opening_lines (rt : runtime) (env : gmap string string) (bucket : string)
    (seed_files : list Seed.seed_file) : list line :=
  [ Out "🚀 S3 Upload Script Starting...";
    Out ("📁 Source directory: " +:+ path_text (path_join (scripts_dir rt) [".."; "seed"]));
    Out ("🪣 Target bucket: " +:+ bucket);
    Out ("🌍 Region: " +:+ first_given [Seed.getenv env "AWS_REGION"] "us-east-1");
    Out "";
    Out "🔍 Checking bucket access...";
    Out "✅ Bucket is accessible";
    Out "";
    Out "📂 Scanning seed directory..." ]
  ++ match seed_files with
     | [] => [Out "⚠️  No files found in seed directory"]
     | _ =>
         Out ("📋 Found " +:+ decimal (length seed_files) +:+ " files to upload:")
         :: map (fun file => Out ("   - " +:+ Seed.fileName file +:+ " ("
                                  +:+ Seed.formatBytes rt (Seed.size file) +:+ ")"))
              seed_files
         ++ [Out ""; Out "📤 Starting uploads..."]
     end.

(** ** The record *)

(** The states of outputs.json in which there is no record to read: the
    file is absent, cannot be read, does not hold JSON, or holds JSON that
    is no array of entries. *)
Definition no_record (rt : runtime) (p : proc) : Prop :=
  files p !! ReadOutputs.outputs_path rt = None
  \/ (exists e, files p !! ReadOutputs.outputs_path rt = Some (Unreadable e))
  \/ (exists text e,
        files p !! ReadOutputs.outputs_path rt = Some (Content text)
        /\ JSON_parse rt text = inl e)
  \/ (exists text parsed e,
        files p !! ReadOutputs.outputs_path rt = Some (Content text)
        /\ JSON_parse rt text = inr parsed
        /\ ReadOutputs.flatten parsed = inl e).

(** ** Worlds for the examples *)

Module Worlds.
Import Demo.

Definition defaults : Deploy.deploy_options :=
  Deploy.Options (Some "us-east-1") None None None.

(** The failure of an update that changes nothing. *)
Definition notice : exec_error :=
  ExecError "Command failed: aws cloudformation update-stack"
    (Some "")
    (Some "An error occurred (ValidationError) when calling the UpdateStack operation: No updates are to be performed.").

Definition denied : exec_error :=
  ExecError "Command failed: aws cloudformation update-stack"
    (Some "")
    (Some "An error occurred (AccessDenied) when calling the UpdateStack operation").

(** An output of the stack, as describe-stacks prints it. *)
Definition output (key value description : string) : json :=
  JObj [("OutputKey", JStr key); ("OutputValue", JStr value); ("Description", JStr description)].

Definition stack_outputs : json :=
  JArr [ output "BucketName" "my-bucket" "Name of the S3 bucket";
         output "Region" "us-east-1" "Region of the stack" ].

(** Every command succeeds and prints the given JSON. *)
Definition answering (data : json) : runtime :=
  runtime_of (all_ok (stringify 0 data)) no_send (inr []).

(** Every command succeeds and prints an empty array. *)
Definition quiet : runtime := answering (JArr []).

(** The second command (the update) fails with [e]. *)
Definition update_fails (e : exec_error) : runtime :=
  runtime_of (fails_at 1 e (stringify 0 stack_outputs)) no_send (inr []).

(** The first command (the probe of teardown, the listing of
    [clearS3Bucket]) fails. *)
Definition first_fails : runtime :=
  runtime_of (fails_at 0 denied "") no_send (inr []).

Definition record_path : path := ["repo"; "outputs.json"].

Definition deployed : gmap path file :=
  {[ record_path := Content (stringify 0 stack_outputs) ]}.

(** The record read from [deployed]. *)
Definition deployed_record : object :=
  Obj {[ "BucketName" := str "my-bucket"; "Region" := str "us-east-1" ]} ObjectPrototype.

(** A bucket with one object version and one delete marker, listed as
    list-object-versions prints them. *)
Definition listing : json :=
  JObj [ ("Versions",
          JArr [JObj [ ("ETag", JStr "abc"); ("Size", JNum "3"); ("Key", JStr "q1.csv");
                       ("VersionId", JStr "v1"); ("IsLatest", JBool false) ]]);
         ("DeleteMarkers",
          JArr [JObj [ ("Key", JStr "q1.csv"); ("VersionId", JStr "v2");
                       ("IsLatest", JBool true) ]]) ].

Definition versioned : runtime := answering listing.

(** A seed directory of two files, the second of which the bucket
    refuses. *)
Definition seed_dir : list dirent :=
  [Dirent "q1.csv" (inr (true, 10%nat)); Dirent "q2.csv" (inr (true, 1536%nat))].

Definition seed_files : gmap path file :=
  {[ ["repo"; "seed"; "q1.csv"] := Content "a,b";
     ["repo"; "seed"; "q2.csv"] := Content "c,d" ]}.

Definition refuses_q2 : list event -> event -> error + option string :=
  fun _ ev =>
    match ev with
    | PutObject _ _ key _ _ _ =>
        if String.eqb key "q2.csv" then inl (Error "AccessDenied" "Access Denied")
        else inr (Some "etag-1")
    | _ => inr None
    end.

Definition seeding : runtime :=
  runtime_of (all_ok "") refuses_q2 (inr seed_dir).

Definition q1 : Seed.seed_file := Seed.SeedFile ["repo"; "seed"; "q1.csv"] "q1.csv" 10.
Definition q2 : Seed.seed_file := Seed.SeedFile ["repo"; "seed"; "q2.csv"] "q2.csv" 1536.

Definition unreadable : gmap path file :=
  {[ record_path := Unreadable (Error "Error" "EACCES: permission denied") ]}.

Definition malformed : gmap path file :=
  {[ record_path := Content "{ not json" ]}.


End Worlds.

(** * Properties *)

(** ** Running a computation step by step *)

Lemma bind_Ret {A B} (m : M A) (k : A -> M B) (p p' : proc) (a : A) :
  m p = (Ret a, p') -> bind m k p = k a p'.
Proof. intros H. unfold bind. rewrite H. reflexivity. Qed.

Lemma bind_Exit {A B} (m : M A) (k : A -> M B) (p p' : proc) (c : Z) :
  m p = (Exit c, p') -> bind m k p = (Exit c, p').
Proof. intros H. unfold bind. rewrite H. reflexivity. Qed.

Lemma bind_Throw {A B} (m : M A) (k : A -> M B) (p p' : proc) (e : error) :
  m p = (Throw e, p') -> bind m k p = (Throw e, p').
Proof. intros H. unfold bind. rewrite H. reflexivity. Qed.

Lemma try_catch_Ret {A} (body : M A) (handler : error -> M A) (p p' : proc) (a : A) :
  body p = (Ret a, p') -> try_catch body handler p = (Ret a, p').
Proof. intros H. unfold try_catch. rewrite H. reflexivity. Qed.

Lemma try_catch_Exit {A} (body : M A) (handler : error -> M A) (p p' : proc) (c : Z) :
  body p = (Exit c, p') -> try_catch body handler p = (Exit c, p').
Proof. intros H. unfold try_catch. rewrite H. reflexivity. Qed.

Lemma try_catch_Throw {A} (body : M A) (handler : error -> M A) (p p' : proc) (e : error) :
  body p = (Throw e, p') -> try_catch body handler p = handler e p'.
Proof. intros H. unfold try_catch. rewrite H. reflexivity. Qed.

Lemma bind_assoc {A B C} (m : M A) (k1 : A -> M B) (k2 : B -> M C) (p : proc) :
  bind (bind m k1) k2 p = bind m (fun a => bind (k1 a) k2) p.
Proof. unfold bind. destruct (m p) as [[a | c | e] p']; reflexivity. Qed.

Lemma try_catch_bind_Ret {A B} (m : M A) (k : A -> M B) (h : error -> M B)
    (p p' : proc) (a : A) :
  m p = (Ret a, p') -> try_catch (bind m k) h p = try_catch (k a) h p'.
Proof. intros H. unfold try_catch, bind. rewrite H. reflexivity. Qed.

Lemma try_catch_bind_Throw {A B} (m : M A) (k : A -> M B) (h : error -> M B)
    (p p' : proc) (e : error) :
  m p = (Throw e, p') -> try_catch (bind m k) h p = h e p'.
Proof. intros H. unfold try_catch, bind. rewrite H. reflexivity. Qed.

(** A substitution whose value has a text gives that text. *)
Lemma text_run (v : value) (s : string) (p : proc) :
  shows v s -> text v p = (Ret s, p).
Proof. intros H. unfold text. rewrite H. reflexivity. Qed.

Lemma text_throws (v : value) (p : proc) :
  (forall s, ~ shows v s) -> text v p = (Throw cannot_convert, p).
Proof.
  intros H. unfold text, ToString in *. unfold shows, ToString in H.
  destruct v as [j | ]; [ | exfalso; exact (H _ eq_refl)].
  destruct (ToString_json j) as [s | ]; [exfalso; exact (H _ eq_refl) | reflexivity].
Qed.

Lemma shows_str (s : string) : shows (str s) s.
Proof. reflexivity. Qed.

(** A text, or nothing, always shows. *)
Lemma text_or_absent_shows (v : value) :
  text_or_absent v -> exists s, shows v s.
Proof. intros [-> | [s ->]]; eexists; reflexivity. Qed.

(** One statement of a script that returns: move on to the next. *)
Ltac step_by tac :=
  rewrite ?bind_assoc;
  erewrite bind_Ret by (first [reflexivity | apply text_run; eassumption | tac]);
  cbn [trace console files].

Ltac step := step_by fail.

(** ** Reading the persisted record *)

Section ReadOutputsFacts.
Variable rt : runtime.

(** The body of [readOutputs] either returns or throws, and leaves the
    process as it was; the handler turns every throw into [{}]. *)
Lemma readOutputs_returns (p : proc) :
  exists o, ReadOutputs.readOutputs rt p = (Ret o, p).
Proof.
  unfold ReadOutputs.readOutputs, try_catch, bind, fs_readFile, lift, throw, ret.
  destruct (files p !! ReadOutputs.outputs_path rt) as [[e | text] | ]; eauto.
  destruct (JSON_parse rt text) as [e | parsed]; eauto.
  destruct (ReadOutputs.flatten parsed) as [e | o]; eauto.
Qed.

Lemma readOutputs_content (p : proc) (text : string) :
  files p !! ReadOutputs.outputs_path rt = Some (Content text) ->
  ReadOutputs.readOutputs rt p =
    (Ret match JSON_parse rt text with
         | inl _ => empty_object
         | inr parsed =>
             match ReadOutputs.flatten parsed with
             | inl _ => empty_object
             | inr o => o
             end
         end, p).
Proof.
  intros Hfile.
  unfold ReadOutputs.readOutputs, try_catch, bind, fs_readFile, lift, throw, ret.
  rewrite Hfile.
  destruct (JSON_parse rt text) as [e | parsed]; [reflexivity | ].
  destruct (ReadOutputs.flatten parsed) as [e | o]; reflexivity.
Qed.

(** Without a record to read, what is read is the empty mapping. *)
Lemma readOutputs_no_record (p : proc) :
  no_record rt p -> ReadOutputs.readOutputs rt p = (Ret empty_object, p).
Proof.
  intros [Hfile | [[e Hfile] | [(text & e & Hfile & Hparse)
                               | (text & parsed & e & Hfile & Hparse & Hflat)]]].
  - unfold ReadOutputs.readOutputs, try_catch, bind, fs_readFile.
    rewrite Hfile. reflexivity.
  - unfold ReadOutputs.readOutputs, try_catch, bind, fs_readFile.
    rewrite Hfile. reflexivity.
  - rewrite (readOutputs_content p text Hfile), Hparse. reflexivity.
  - rewrite (readOutputs_content p text Hfile), Hparse, Hflat. reflexivity.
Qed.

Lemma field_empty_object (k : string) : field empty_object k = undefined.
Proof. reflexivity. Qed.

(** A source that gives nothing drops out of an option chain. *)
Lemma or_undefined_between (a next : value) :
  JS.or (JS.or a undefined) next = JS.or a next.
Proof. unfold JS.or. destruct (truthy a) eqn:Ha; [rewrite Ha | ]; reflexivity. Qed.

(** The directory of the scripts and that of utils/ name the same
    outputs.json. *)
Lemma removelast_snoc {A} (l : list A) (x : A) : removelast (l ++ [x]) = l.
Proof. apply removelast_last. Qed.

Lemma outputs_path_shared :
  ReadOutputs.outputs_path rt = Deploy.outputsFile rt.
Proof.
  unfold ReadOutputs.outputs_path, Deploy.outputsFile, ReadOutputs.dirname, path_join.
  cbn. rewrite removelast_snoc. reflexivity.
Qed.

End ReadOutputsFacts.

(** ** Option chains *)

(** A chain of sources that are texts or absent ends in the first text
    given, else in the default. *)
Lemma or_given (a b : value) :
  text_or_absent a ->
  JS.or a b = match given a with Some s => str s | None => b end.
Proof.
  intros [-> | [s ->]]; [reflexivity | ].
  unfold JS.or, given, truthy, str. destruct (String.eqb s ""); reflexivity.
Qed.

Lemma precedence_first_given (flag variable record : value) (default : string) :
  text_or_absent flag -> text_or_absent variable -> text_or_absent record ->
  precedence flag variable record (str default)
  = str (first_given [flag; variable; record] default).
Proof.
  intros Hf Hv Hr.
  destruct Hf as [-> | [f ->]], Hv as [-> | [v ->]], Hr as [-> | [r ->]];
    unfold precedence, JS.or, first_given, given, truthy, str, undefined;
    try destruct (String.eqb f EmptyString) eqn:?;
    try destruct (String.eqb v EmptyString) eqn:?;
    try destruct (String.eqb r EmptyString) eqn:?;
    repeat (cbn [negb];
            match goal with
            | H : String.eqb ?s _ = _ |- context [String.eqb ?s _] => rewrite H
            end);
    reflexivity.
Qed.



Lemma text_or_absent_opt (o : option string) : text_or_absent (JStr <$> o).
Proof. destruct o as [s | ]; [right; exists s; reflexivity | left; reflexivity]. Qed.

Lemma truthy_str (name : string) : name <> "" -> truthy (str name) = true.
Proof.
  intros H. cbn. destruct (String.eqb_spec name ""); [contradiction | reflexivity].
Qed.

(** ** What a run does to the world, the console aside *)

Create HintDb agree discriminated.

Lemma same_world_refl (p : proc) : same_world p p.
Proof. split; reflexivity. Qed.

Lemma agree_ret {A} (a : A) : agree (ret a) (ret a).
Proof. intros p q H. split; [reflexivity | exact H]. Qed.

Lemma agree_exit {A} (c : Z) : agree (@exit A c) (exit c).
Proof. intros p q H. split; [reflexivity | exact H]. Qed.

Lemma agree_throw {A} (e : error) : agree (@throw A e) (throw e).
Proof. intros p q H. split; [reflexivity | exact H]. Qed.

Lemma agree_bind {A B} (m1 m2 : M A) (k1 k2 : A -> M B) :
  agree m1 m2 -> (forall a, agree (k1 a) (k2 a)) -> agree (bind m1 k1) (bind m2 k2).
Proof.
  intros Hm Hk p q Hpq. unfold bind.
  destruct (Hm p q Hpq) as [Ho Hw].
  destruct (m1 p) as [o1 p1], (m2 q) as [o2 q2]. cbn in Ho, Hw. subst o2.
  destruct o1 as [a | c | e]; [apply Hk; exact Hw | split; [reflexivity | exact Hw] ..].
Qed.

Lemma agree_try_catch {A} (b1 b2 : M A) (h1 h2 : error -> M A) :
  agree b1 b2 -> (forall e, agree (h1 e) (h2 e)) -> agree (try_catch b1 h1) (try_catch b2 h2).
Proof.
  intros Hb Hh p q Hpq. unfold try_catch.
  destruct (Hb p q Hpq) as [Ho Hw].
  destruct (b1 p) as [o1 p1], (b2 q) as [o2 q2]. cbn in Ho, Hw. subst o2.
  destruct o1 as [a | c | e]; [split; [reflexivity | exact Hw] .. | apply Hh; exact Hw].
Qed.

(** What is printed does not matter. *)
Lemma agree_console_log (s1 s2 : string) : agree (console_log s1) (console_log s2).
Proof. intros p q H. split; [reflexivity | exact H]. Qed.

Lemma agree_console_error (s1 s2 : string) : agree (console_error s1) (console_error s2).
Proof. intros p q H. split; [reflexivity | exact H]. Qed.

Lemma agree_when (b : bool) (m1 m2 : M unit) :
  agree m1 m2 -> agree (when b m1) (when b m2).
Proof. intros H. destruct b; [exact H | apply agree_ret]. Qed.

Lemma agree_lift {A} (r : error + A) : agree (lift r) (lift r).
Proof. destruct r; [apply agree_throw | apply agree_ret]. Qed.

Lemma agree_text (v : value) : agree (text v) (text v).
Proof. apply agree_lift. Qed.

Lemma agree_prop (j : json) (k : string) : agree (prop j k) (prop j k).
Proof. unfold prop. destruct (JS.get j k); [apply agree_ret | apply agree_throw]. Qed.

(** Two values that have a text may differ where the text only reaches the
    console. *)
Lemma agree_text_any {A} (v v' : value) (s s' : string) (k k' : string -> M A) :
  shows v s -> shows v' s' -> agree (k s) (k' s') ->
  agree (bind (text v) k) (bind (text v') k').
Proof.
  intros Hv Hv' Hk p q Hpq.
  rewrite (bind_Ret _ _ _ _ _ (text_run v s p Hv)),
    (bind_Ret _ _ _ _ _ (text_run v' s' q Hv')).
  apply Hk, Hpq.
Qed.

#[local] Hint Resolve agree_ret agree_exit agree_throw agree_console_log
  agree_console_error agree_when agree_lift agree_text agree_prop : agree.

Section WorldFacts.
Variable rt : runtime.

Lemma agree_run (command : string) : agree (run rt command) (run rt command).
Proof.
  intros p q [Ht Hf]. unfold run. cbn. rewrite Ht, Hf. repeat split.
Qed.

Lemma agree_fs_writeFileSync (f : path) (text : string) :
  agree (fs_writeFileSync rt f text) (fs_writeFileSync rt f text).
Proof.
  intros p q [Ht Hf]. unfold fs_writeFileSync. rewrite Ht.
  destruct (writeFileSync rt (trace q) f); cbn; rewrite ?Hf; repeat split; assumption.
Qed.

Lemma agree_fs_readFile (f : path) : agree (fs_readFile f) (fs_readFile f).
Proof.
  intros p q [Ht Hf]. unfold fs_readFile. rewrite Hf.
  destruct (files q !! f) as [[e | text] | ]; repeat split; assumption.
Qed.

End WorldFacts.

#[local] Hint Resolve agree_run agree_fs_writeFileSync agree_fs_readFile : agree.

(** Solves [agree m1 m2] for two computations of the same shape, splitting
    on the values they branch on. *)
Ltac agree_step :=
  match goal with
  | |- agree (bind _ _) (bind _ _) => apply agree_bind; [ | intros ? ]
  | |- agree (try_catch _ _) (try_catch _ _) => apply agree_try_catch; [ | intros ? ]
  | |- agree (if ?b then _ else _) (if ?b then _ else _) => destruct b
  | |- agree (match ?x with _ => _ end) (match ?x with _ => _ end) => destruct x
  | |- agree _ _ => solve [auto with agree]
  end.

(** ** A run only adds to the calls made *)

Lemma extends_ret {A} (a : A) : extends (ret a).
Proof. intros p. exists []. cbn. symmetry. apply app_nil_r. Qed.

Lemma extends_exit {A} (c : Z) : extends (@exit A c).
Proof. intros p. exists []. cbn. symmetry. apply app_nil_r. Qed.

Lemma extends_throw {A} (e : error) : extends (@throw A e).
Proof. intros p. exists []. cbn. symmetry. apply app_nil_r. Qed.

Lemma extends_bind {A B} (m : M A) (k : A -> M B) :
  extends m -> (forall a, extends (k a)) -> extends (bind m k).
Proof.
  intros Hm Hk p. unfold bind.
  destruct (Hm p) as [r1 H1]. destruct (m p) as [o p1]. cbn in H1.
  destruct o as [a | c | e]; [ | exists r1; exact H1 ..].
  destruct (Hk a p1) as [r2 H2]. exists (r1 ++ r2).
  rewrite H2, H1, app_assoc. reflexivity.
Qed.

Lemma extends_try_catch {A} (body : M A) (handler : error -> M A) :
  extends body -> (forall e, extends (handler e)) -> extends (try_catch body handler).
Proof.
  intros Hb Hh p. unfold try_catch.
  destruct (Hb p) as [r1 H1]. destruct (body p) as [o p1]. cbn in H1.
  destruct o as [a | c | e]; [exists r1; exact H1 .. | ].
  destruct (Hh e p1) as [r2 H2]. exists (r1 ++ r2).
  rewrite H2, H1, app_assoc. reflexivity.
Qed.

Lemma extends_console_log (s : string) : extends (console_log s).
Proof. intros p. exists []. cbn. symmetry. apply app_nil_r. Qed.

Lemma extends_console_error (s : string) : extends (console_error s).
Proof. intros p. exists []. cbn. symmetry. apply app_nil_r. Qed.

Lemma extends_when (b : bool) (m : M unit) : extends m -> extends (when b m).
Proof. intros H. destruct b; [exact H | apply extends_ret]. Qed.

Lemma extends_lift {A} (r : error + A) : extends (lift r).
Proof. destruct r; [apply extends_throw | apply extends_ret]. Qed.

Lemma extends_text (v : value) : extends (text v).
Proof. apply extends_lift. Qed.

Lemma extends_prop (j : json) (k : string) : extends (prop j k).
Proof. unfold prop. destruct (JS.get j k); [apply extends_ret | apply extends_throw]. Qed.

Lemma extends_run (rt : runtime) (command : string) : extends (run rt command).
Proof. intros p. exists [Exec command]. reflexivity. Qed.

Lemma extends_fs_writeFileSync (rt : runtime) (f : path) (text : string) :
  extends (fs_writeFileSync rt f text).
Proof.
  intros p. exists []. unfold fs_writeFileSync.
  destruct (writeFileSync rt (trace p) f); cbn; symmetry; apply app_nil_r.
Qed.

Create HintDb extends discriminated.
#[local] Hint Resolve extends_ret extends_exit extends_throw extends_console_log
  extends_console_error extends_when extends_lift extends_text extends_prop extends_run
  extends_fs_writeFileSync : extends.

Ltac extends_step :=
  match goal with
  | |- extends (bind _ _) => apply extends_bind; [ | intros ? ]
  | |- extends (try_catch _ _) => apply extends_try_catch; [ | intros ? ]
  | |- extends (if ?b then _ else _) => destruct b
  | |- extends (match ?x with _ => _ end) => destruct x
  | |- extends _ => solve [auto with extends]
  end.

(** ** What a run can throw *)

Lemma throws_only_ret (P : error -> Prop) {A} (a : A) : throws_only P (ret a).
Proof. intros p e H. discriminate H. Qed.

Lemma throws_only_exit (P : error -> Prop) {A} (c : Z) : throws_only P (@exit A c).
Proof. intros p e H. discriminate H. Qed.

Lemma throws_only_throw (P : error -> Prop) {A} (e : error) :
  P e -> throws_only P (@throw A e).
Proof. intros He p e' H. injection H as <-. exact He. Qed.

Lemma throws_only_bind (P : error -> Prop) {A B} (m : M A) (k : A -> M B) :
  throws_only P m -> (forall a, throws_only P (k a)) -> throws_only P (bind m k).
Proof.
  intros Hm Hk p e. unfold bind.
  specialize (Hm p). destruct (m p) as [[a | c | e'] p1]; cbn.
  - apply Hk.
  - discriminate.
  - intros H. injection H as <-. apply Hm. reflexivity.
Qed.

Lemma throws_only_try_catch (P : error -> Prop) {A} (body : M A) (handler : error -> M A) :
  (forall e, throws_only P (handler e)) -> throws_only P (try_catch body handler).
Proof.
  intros Hh p e. unfold try_catch.
  destruct (body p) as [[a | c | e'] p1]; cbn; [discriminate .. | apply Hh].
Qed.

Lemma throws_only_console_log (P : error -> Prop) (s : string) :
  throws_only P (console_log s).
Proof. intros p e H. discriminate H. Qed.

Lemma throws_only_console_error (P : error -> Prop) (s : string) :
  throws_only P (console_error s).
Proof. intros p e H. discriminate H. Qed.

Lemma throws_only_when (P : error -> Prop) (b : bool) (m : M unit) :
  throws_only P m -> throws_only P (when b m).
Proof. intros H. destruct b; [exact H | apply throws_only_ret]. Qed.

Lemma throws_only_run (P : error -> Prop) (rt : runtime) (command : string) :
  throws_only P (run rt command).
Proof. intros p e H. discriminate H. Qed.

Lemma throws_only_lift (P : error -> Prop) {A} (r : error + A) :
  (forall e, r = inl e -> P e) -> throws_only P (lift r).
Proof.
  intros H. destruct r as [e | a]; [ | apply throws_only_ret].
  apply throws_only_throw. apply H. reflexivity.
Qed.

(** A substitution throws nothing but the error of the conversion. *)
Lemma throws_only_text (P : error -> Prop) (v : value) :
  P cannot_convert -> throws_only P (text v).
Proof.
  intros H. apply throws_only_lift. intros e. unfold ToString.
  destruct v as [j | ]; [ | discriminate].
  destruct (ToString_json j); [discriminate | ].
  intros Heq. injection Heq as <-. exact H.
Qed.

Lemma throws_only_prop (P : error -> Prop) (j : json) (k : string) :
  P (TypeError "Cannot read properties of null") -> throws_only P (prop j k).
Proof.
  intros H. unfold prop.
  destruct (JS.get j k); [apply throws_only_ret | apply throws_only_throw; exact H].
Qed.

Create HintDb throws discriminated.
#[local] Hint Resolve throws_only_ret throws_only_exit throws_only_console_log
  throws_only_console_error throws_only_when throws_only_run : throws.

Ltac throws_step :=
  match goal with
  | |- throws_only _ (bind _ _) => apply throws_only_bind; [ | intros ? ]
  | |- throws_only _ (try_catch _ _) => apply throws_only_try_catch; intros ?
  | |- throws_only _ (if ?b then _ else _) => destruct b
  | |- throws_only _ (match ?x with _ => _ end) => destruct x
  | |- throws_only _ _ => solve [auto with throws]
  end.


(** ** Computations that only print *)

Lemma quiet_ret {A} (a : A) : quiet (ret a).
Proof. intros [t c f]. exists (Ret a), c. split; [reflexivity | discriminate]. Qed.

Lemma quiet_throw {A} (e : error) : quiet (@throw A e).
Proof. intros [t c f]. exists (Throw e), c. split; [reflexivity | discriminate]. Qed.

Lemma quiet_lift {A} (r : error + A) : quiet (lift r).
Proof. destruct r; [apply quiet_throw | apply quiet_ret]. Qed.

Lemma quiet_text (v : value) : quiet (text v).
Proof. apply quiet_lift. Qed.

Lemma quiet_prop (j : json) (k : string) : quiet (prop j k).
Proof. unfold prop. destruct (JS.get j k); [apply quiet_ret | apply quiet_throw]. Qed.

Lemma quiet_console_log (s : string) : quiet (console_log s).
Proof. intros p. eexists _, _. split; [reflexivity | discriminate]. Qed.

Lemma quiet_console_error (s : string) : quiet (console_error s).
Proof. intros p. eexists _, _. split; [reflexivity | discriminate]. Qed.

Lemma quiet_bind {A B} (m : M A) (k : A -> M B) :
  quiet m -> (forall a, quiet (k a)) -> quiet (bind m k).
Proof.
  intros Hm Hk p. unfold bind.
  destruct (Hm p) as (o & c & Hrun & Ho). rewrite Hrun.
  destruct o as [a | code | e].
  - destruct (Hk a (Proc (trace p) c (files p))) as (o' & c' & Hrun' & Ho').
    exists o', c'. split; assumption.
  - exfalso. exact (Ho code eq_refl).
  - exists (Throw e), c. split; [reflexivity | discriminate].
Qed.

Create HintDb quiet discriminated.
#[local] Hint Resolve quiet_ret quiet_throw quiet_lift quiet_text quiet_prop
  quiet_console_log quiet_console_error : quiet.

Ltac quiet_step :=
  match goal with
  | |- quiet (bind _ _) => apply quiet_bind; [ | intros ? ]
  | |- quiet (if ?b then _ else _) => destruct b
  | |- quiet (match ?x with _ => _ end) => destruct x
  | |- quiet _ => solve [auto with quiet]
  end.

Lemma extends_quiet {A} (m : M A) : quiet m -> extends m.
Proof.
  intros H p. destruct (H p) as (o & c & Hrun & _).
  exists []. rewrite Hrun. cbn. symmetry. apply app_nil_r.
Qed.

(** ** Teardown *)

Section TeardownFacts.
Variable rt : runtime.

Lemma teardown_stackExists_run (region : value) (r : string) (p : proc) :
  shows region r ->
  Teardown.stackExists rt Teardown.STACK_NAME region p =
    (Ret match execSync rt (trace p) (probe_command r) with
         | ExecOk _ => true
         | ExecFailed _ => false
         end,
     Proc (trace p ++ [Exec (probe_command r)]) (console p) (files p)).
Proof.
  intros Hr.
  unfold Teardown.stackExists, Teardown.describe_command, try_catch.
  step. step.
  change ("aws cloudformation describe-stacks --stack-name " +:+ Teardown.STACK_NAME
          +:+ " --region " +:+ r) with (probe_command r).
  unfold bind, run, ret.
  destruct (execSync rt (trace p) (probe_command r)); reflexivity.
Qed.

(** One turn of a delete loop runs the delete-object call of its entry. *)
Lemma delete_entry_run (what : string) (bucketName region : value) (b r : string)
    (entry : json) (key_id : string * string) (p : proc) :
  shows bucketName b -> shows region r -> keyed entry key_id ->
  exists c,
    Teardown.delete_entry rt what bucketName region entry p =
      (Ret tt, Proc (trace p ++ [delete_object b r key_id]) c (files p)).
Proof.
  intros Hb Hr (key & id & Hkey & Hkey_ & Hid & Hid_).
  unfold Teardown.delete_entry, Teardown.delete_command, Teardown.delete_description,
    Teardown.execCommandSafe, Teardown.log, prop.
  rewrite Hkey, Hid.
  do 12 step.
  eexists. reflexivity.
Qed.

Lemma for_of_delete_entry (what : string) (bucketName region : value) (b r : string)
    (entries : list json) (keys : list (string * string)) :
  shows bucketName b -> shows region r ->
  Forall2 keyed entries keys ->
  forall p, exists p',
    Teardown.for_of (Teardown.delete_entry rt what bucketName region) entries p = (Ret tt, p')
    /\ trace p' = trace p ++ map (delete_object b r) keys
    /\ files p' = files p.
Proof.
  intros Hb Hr. induction 1 as [ | entry key_id entries keys Hentry _ IH]; intros p.
  - exists p. cbn. rewrite app_nil_r. repeat split.
  - cbn [Teardown.for_of map].
    destruct (delete_entry_run what bucketName region b r entry key_id p Hb Hr Hentry)
      as [c Hq].
    rewrite (bind_Ret _ _ _ _ _ Hq).
    match goal with
    | |- context [Teardown.for_of _ entries ?q] => destruct (IH q) as (p' & Hp' & Htp' & Hfp')
    end.
    exists p'. split; [exact Hp' | ].
    cbn [trace files] in Htp', Hfp'.
    split; [rewrite Htp', <- app_assoc; reflexivity | exact Hfp'].
Qed.

(** What the listing holds under a name is what [x || []] gives. *)
Lemma listed_under_or_empty (listData : json) (name : string) (entries : list json) :
  listed_under listData name entries ->
  exists v, JS.get listData name = Some v /\ Teardown.or_empty v = JArr entries.
Proof.
  intros (v & Hget & Hcase). exists v. split; [exact Hget | ].
  destruct Hcase as [-> | [Hfalsy ->]].
  - reflexivity.
  - unfold Teardown.or_empty, JS.or. rewrite Hfalsy. reflexivity.
Qed.

(** C6. When the persisted record holds a bucket name and the probe for the
    stack fails (the stack does not exist), [teardown] returns normally, so
    that the process ends with status 0; the probe, describe-stacks on the
    stack in the region resolved, is the only command it runs (no listing,
    no delete-object, no delete-stack) and outputs.json is left in place.
    The bucket name and the region are values that have a text, as the
    values deploy writes have. *)
Theorem C6_teardown_without_stack_is_noop
    (options : Teardown.teardown_options) (p : proc)
    (previousOutputs : object) (bucket region : string) (e : exec_error) :
  ReadOutputs.readOutputs rt p = (Ret previousOutputs, p) ->
  truthy (field previousOutputs "BucketName") = true ->
  shows (field previousOutputs "BucketName") bucket ->
  shows (Teardown.resolve_region options previousOutputs) region ->
  execSync rt (trace p)
    ("aws cloudformation describe-stacks --stack-name s3-mcp-infrastructure --region "
     +:+ region) = ExecFailed e ->
  exists p',
    Teardown.teardown rt options p = (Ret tt, p')
    /\ exit_code (fst (Teardown.teardown rt options p)) = 0
    /\ trace p' =
         trace p
         ++ [Exec ("aws cloudformation describe-stacks --stack-name s3-mcp-infrastructure --region "
                   +:+ region)]
    /\ files p' = files p.
Proof.
  intros Hread Hbucket Hname Hregion Hprobe.
  change ("aws cloudformation describe-stacks --stack-name s3-mcp-infrastructure --region "
          +:+ region) with (probe_command region) in *.
  assert (Hrun : exists p',
             Teardown.teardown rt options p = (Ret tt, p')
             /\ trace p' = trace p ++ [Exec (probe_command region)]
             /\ files p' = files p).
  { unfold Teardown.teardown.
    rewrite (bind_Ret _ _ _ _ _ Hread). cbv zeta.
    rewrite Hbucket. cbn [negb]. unfold Teardown.log.
    do 6 step.
    step_by ltac:(apply teardown_stackExists_run; eassumption).
    rewrite Hprobe. cbn [negb].
    eexists. split; [reflexivity | split; reflexivity]. }
  destruct Hrun as (p' & Hrun & Htrace & Hfiles).
  exists p'. rewrite Hrun. repeat split; assumption.
Qed.

(** C4. Emptying the bucket.  The listing is the one list-object-versions
    call on the bucket.  If it fails, [clearS3Bucket] returns normally
    having run nothing else.  If it succeeds and its output parses to a
    listing whose [Versions] and [DeleteMarkers] are arrays (or are missing)
    of entries with a [Key] and a [VersionId], the commands run after it are
    exactly one delete-object call per listed version, then one per listed
    delete marker, each on the bucket with the key and the version ID of its
    entry; and [clearS3Bucket] returns normally. *)
Theorem C4_clearS3Bucket_one_delete_per_entry
    (bucketName region : value) (bucket region_ : string) (p : proc) :
  shows bucketName bucket ->
  shows region region_ ->
  (forall e,
     execSync rt (trace p)
       ("aws s3api list-object-versions --bucket " +:+ bucket +:+ " --region " +:+ region_)
       = ExecFailed e ->
     exists p',
       Teardown.clearS3Bucket rt bucketName region p = (Ret tt, p')
       /\ trace p' =
            trace p
            ++ [Exec ("aws s3api list-object-versions --bucket " +:+ bucket
                      +:+ " --region " +:+ region_)]
       /\ files p' = files p)
  /\ (forall result listData versions deleteMarkers
             (version_keys marker_keys : list (string * string)),
     execSync rt (trace p)
       ("aws s3api list-object-versions --bucket " +:+ bucket +:+ " --region " +:+ region_)
       = ExecOk result ->
     JSON_parse rt result = inr listData ->
     listed_under listData "Versions" versions ->
     listed_under listData "DeleteMarkers" deleteMarkers ->
     Forall2 keyed versions version_keys ->
     Forall2 keyed deleteMarkers marker_keys ->
     exists p',
       Teardown.clearS3Bucket rt bucketName region p = (Ret tt, p')
       /\ trace p' =
            trace p
            ++ Exec ("aws s3api list-object-versions --bucket " +:+ bucket
                     +:+ " --region " +:+ region_)
            :: map (fun key_id =>
                      Exec ("aws s3api delete-object --bucket " +:+ bucket
                            +:+ " --key " +:+ DQ +:+ fst key_id +:+ DQ
                            +:+ " --version-id " +:+ snd key_id
                            +:+ " --region " +:+ region_))
                 (version_keys ++ marker_keys)
       /\ files p' = files p).
Proof.
  intros Hb Hr. split.
  - intros e Hlist.
    unfold Teardown.clearS3Bucket, Teardown.list_command, Teardown.execCommandSafe,
      Teardown.log.
    do 2 step.
    eexists. split.
    { apply try_catch_Ret. do 5 step. rewrite Hlist. reflexivity. }
    split; reflexivity.
  - intros result listData versions deleteMarkers version_keys marker_keys
      Hlist Hparse Hv Hm Hvk Hmk.
    destruct (listed_under_or_empty _ _ _ Hv) as (versions_ & Hgetv & Hvs).
    destruct (listed_under_or_empty _ _ _ Hm) as (markers_ & Hgetm & Hms).
    unfold Teardown.clearS3Bucket, Teardown.list_command, Teardown.execCommandSafe,
      Teardown.log.
    do 2 step.
    match goal with
    | |- exists p', try_catch ?body ?h ?q = (Ret tt, p') /\ _ =>
        cut (exists p',
               body q = (Ret tt, p')
               /\ trace p' =
                    trace p
                    ++ Exec ("aws s3api list-object-versions --bucket " +:+ bucket
                             +:+ " --region " +:+ region_)
                    :: map (delete_object bucket region_) (version_keys ++ marker_keys)
               /\ files p' = files p);
          [ intros (p' & Hrun & Ht & Hf); exists p';
            rewrite (try_catch_Ret _ _ _ _ _ Hrun); repeat split; assumption | ]
    end.
    do 5 step. rewrite Hlist, Hparse. step.
    unfold prop at 1. rewrite Hgetv. step.
    unfold prop at 1. rewrite Hgetm. step.
    cbv zeta. rewrite Hvs, Hms.
    unfold Teardown.none_listed. step.
    case_bool_decide as Hnone.
    + assert (versions = [] /\ deleteMarkers = []) as [-> ->].
      { destruct versions, deleteMarkers; cbn in Hnone; try lia. split; reflexivity. }
      inversion Hvk. inversion Hmk. subst.
      eexists. split; [reflexivity | split; reflexivity].
    + do 5 step.
      unfold Teardown.delete_all.
      match goal with
      | |- context [bind (Teardown.for_of _ versions) _ ?q] =>
          destruct (for_of_delete_entry "version" bucketName region bucket region_
                      versions version_keys Hb Hr Hvk q) as (q1 & Hq1 & Htq1 & Hfq1)
      end.
      rewrite (bind_Ret _ _ _ _ _ Hq1).
      destruct (for_of_delete_entry "delete marker" bucketName region bucket region_
                  deleteMarkers marker_keys Hb Hr Hmk q1) as (q2 & Hq2 & Htq2 & Hfq2).
      rewrite (bind_Ret _ _ _ _ _ Hq2).
      eexists. split; [reflexivity | ].
      cbn [trace files]. rewrite Htq2, Htq1, Hfq2, Hfq1. cbn [trace files].
      rewrite map_app, <- !app_assoc. split; reflexivity.
Qed.

End TeardownFacts.

(** ** Deploy *)

Section DeployFacts.
Variable rt : runtime.
Variable env : gmap string string.

Lemma agree_display_each (l : list json) :
  agree (Deploy.display_each l) (Deploy.display_each l).
Proof.
  induction l as [ | output l IH]; cbn [Deploy.display_each]; [auto with agree | ].
  repeat agree_step; exact IH.
Qed.

Lemma agree_display (data : json) : agree (Deploy.display rt data) (Deploy.display rt data).
Proof.
  unfold Deploy.display. apply agree_bind; [auto with agree | intros _].
  destruct data as [ | | | s | [ | x l] | fs]; auto with agree.
  - destruct (String.eqb s ""); auto with agree.
  - apply agree_display_each.
  - repeat agree_step.
Qed.

Lemma agree_execCommand (command d1 d2 : string) :
  agree (Deploy.execCommand rt command d1) (Deploy.execCommand rt command d2).
Proof. unfold Deploy.execCommand, Deploy.log. repeat agree_step. Qed.

Lemma agree_stackExists (stackName : string) (region : value) :
  agree (Deploy.stackExists rt stackName region) (Deploy.stackExists rt stackName region).
Proof. unfold Deploy.stackExists, Deploy.describe_command. repeat agree_step. Qed.

Lemma agree_persist_outputs (region : value) :
  agree (Deploy.persist_outputs rt region) (Deploy.persist_outputs rt region).
Proof.
  unfold Deploy.persist_outputs, Deploy.outputs_command, Deploy.log.
  repeat first [apply agree_display | apply agree_execCommand | agree_step].
Qed.

(** The bucket name given to the body of [deployStack] reaches the console
    only: two names that have a text give runs that end in the same way in
    the same world. *)
Lemma deploy_resolved_ignores_bucketName (b1 b2 region t1 t2 : value) (s1 s2 : string) :
  shows b1 s1 -> shows b2 s2 ->
  agree (Deploy.deploy_resolved rt b1 region t1 t2)
        (Deploy.deploy_resolved rt b2 region t1 t2).
Proof.
  intros H1 H2.
  unfold Deploy.deploy_resolved, Deploy.stack_command, Deploy.wait_command,
    Deploy.execCommandSafe, Deploy.log.
  apply agree_bind; [auto with agree | intros _].
  apply (agree_text_any b1 b2 s1 s2); [assumption .. | ].
  repeat first
    [ apply agree_persist_outputs
    | apply agree_execCommand
    | apply agree_stackExists
    | agree_step ].
Qed.

Lemma stackExists_run (region : value) (r : string) (p : proc) :
  shows region r ->
  Deploy.stackExists rt Deploy.STACK_NAME region p =
    (Ret match execSync rt (trace p) (probe_command r) with
         | ExecOk _ => true
         | ExecFailed _ => false
         end,
     Proc (trace p ++ [Exec (probe_command r)]) (console p) (files p)).
Proof.
  intros Hr.
  unfold Deploy.stackExists, Deploy.describe_command, try_catch.
  step. step.
  change ("aws cloudformation describe-stacks --stack-name " +:+ Deploy.STACK_NAME
          +:+ " --region " +:+ r) with (probe_command r).
  unfold bind, run, ret.
  destruct (execSync rt (trace p) (probe_command r)); reflexivity.
Qed.

(** The command line of the stack operation carries the texts of the two
    account IDs and of the region. *)
Lemma stack_command_run (operation : string) (t1 t2 region : value) (one two r : string)
    (p : proc) :
  shows t1 one -> shows t2 two -> shows region r ->
  Deploy.stack_command rt operation t1 t2 region p =
    (Ret (operation_command (stack_template rt) operation one two r), p).
Proof.
  intros H1 H2 Hr. unfold Deploy.stack_command. do 3 step. reflexivity.
Qed.

Lemma wait_command_run (waitCommand : string) (region : value) (r : string) (p : proc) :
  shows region r ->
  Deploy.wait_command waitCommand region p =
    (Ret ("aws cloudformation wait " +:+ waitCommand
          +:+ " --stack-name s3-mcp-infrastructure --region " +:+ r), p).
Proof. intros Hr. unfold Deploy.wait_command. step. reflexivity. Qed.

Lemma outputs_command_run (region : value) (r : string) (p : proc) :
  shows region r ->
  Deploy.outputs_command region p = (Ret (outputs_query r), p).
Proof. intros Hr. unfold Deploy.outputs_command. step. reflexivity. Qed.

(** The closing display prints and may throw (on an entry that is [null] or
    has no text, or on outputs that are no array); it runs nothing and
    writes nothing. *)
Lemma quiet_display_each (l : list json) : quiet (Deploy.display_each l).
Proof.
  induction l as [ | output l IH]; cbn [Deploy.display_each]; [auto with quiet | ].
  repeat quiet_step; exact IH.
Qed.

Lemma quiet_display (data : json) : quiet (Deploy.display rt data).
Proof.
  unfold Deploy.display. apply quiet_bind; [auto with quiet | intros _].
  destruct data as [ | | | s | [ | x l] | fs]; auto with quiet.
  - destruct (String.eqb s ""); auto with quiet.
  - apply quiet_display_each.
  - repeat quiet_step.
Qed.

Lemma display_each_returns (l : list json) :
  Forall displayable l ->
  forall p, exists c, Deploy.display_each l p = (Ret tt, Proc (trace p) c (files p)).
Proof.
  induction 1 as [ | output l (key & value & k & v & Hkey & Hk & Hvalue & Hv) _ IH];
    intros p; cbn [Deploy.display_each].
  - exists (console p). destruct p. reflexivity.
  - unfold prop. rewrite Hkey, Hvalue. do 5 step.
    match goal with
    | |- context [Deploy.display_each l ?q] => destruct (IH q) as [c Hrun]
    end.
    exists c. exact Hrun.
Qed.

Lemma display_returns (l : list json) :
  Forall displayable l ->
  forall p, exists c, Deploy.display rt (JArr l) p = (Ret tt, Proc (trace p) c (files p)).
Proof.
  intros Hl p. unfold Deploy.display. step.
  destruct l as [ | output l].
  - eexists. reflexivity.
  - match goal with
    | |- context [Deploy.display_each ?l ?q] =>
        destruct (display_each_returns l Hl q) as [c Hrun]
    end.
    exists c. exact Hrun.
Qed.

Lemma extends_display (data : json) : extends (Deploy.display rt data).
Proof. apply extends_quiet, quiet_display. Qed.

Lemma extends_execCommand (command description : string) :
  extends (Deploy.execCommand rt command description).
Proof. unfold Deploy.execCommand, Deploy.log. repeat extends_step. Qed.

Lemma extends_persist_outputs (region : value) : extends (Deploy.persist_outputs rt region).
Proof.
  unfold Deploy.persist_outputs, Deploy.outputs_command, Deploy.log.
  repeat first [apply extends_display | apply extends_execCommand | extends_step].
Qed.

Local Ltac step ::=
  step_by ltac:(first [ apply stackExists_run; eassumption
                      | apply stack_command_run; eassumption
                      | apply wait_command_run; eassumption
                      | apply outputs_command_run; eassumption ]).

(** Past the check of the account IDs, what the run can still throw is a
    [TypeError] of the closing display, not the error of the check. *)
Lemma not_validation_error_TypeError (m : string) : TypeError m <> validation_error.
Proof. discriminate. Qed.

Lemma throws_display_each (l : list json) :
  throws_only (fun e => e <> validation_error) (Deploy.display_each l).
Proof.
  induction l as [ | output l IH]; cbn [Deploy.display_each]; [auto with throws | ].
  repeat first
    [ exact IH
    | apply throws_only_prop; discriminate
    | apply throws_only_text; discriminate
    | throws_step ].
Qed.

Lemma throws_gt (v : value) (n : Z) :
  throws_only (fun e => e <> validation_error) (lift (gt rt v n)).
Proof.
  apply throws_only_lift. intros e. unfold gt, primitive.
  destruct v as [j | ]; [ | discriminate].
  destruct (ToString_json j); [discriminate | ].
  intros H. injection H as <-. discriminate.
Qed.

Lemma throws_display (data : json) :
  throws_only (fun e => e <> validation_error) (Deploy.display rt data).
Proof.
  unfold Deploy.display. apply throws_only_bind; [auto with throws | intros _].
  destruct data as [ | | | s | [ | x l] | fs]; auto with throws.
  - destruct (String.eqb s ""); [auto with throws | ].
    apply throws_only_throw. discriminate.
  - apply throws_display_each.
  - apply throws_only_bind; [apply throws_gt | intros [ | ]]; [ | auto with throws].
    apply throws_only_throw. discriminate.
Qed.

Lemma throws_execCommand (P : error -> Prop) (command description : string) :
  throws_only P (Deploy.execCommand rt command description).
Proof. unfold Deploy.execCommand, Deploy.log. repeat throws_step. Qed.

Lemma throws_persist_outputs (region : value) :
  throws_only (fun e => e <> validation_error) (Deploy.persist_outputs rt region).
Proof.
  unfold Deploy.persist_outputs, Deploy.outputs_command, Deploy.log.
  repeat first
    [ apply throws_display
    | apply throws_execCommand
    | apply throws_only_text; discriminate
    | throws_step ].
Qed.

(** With both account IDs present, the body of [deployStack] runs the probe
    and then the create-stack or update-stack command, which carries the
    texts of the IDs; it does not end in the error of the check. *)
Lemma deploy_resolved_reaches_operation (bucketName region t1 t2 : value)
    (b r one two : string) (p : proc) :
  shows bucketName b -> shows region r -> shows t1 one -> shows t2 two ->
  truthy t1 = true -> truthy t2 = true ->
  fst (Deploy.deploy_resolved rt bucketName region t1 t2 p) <> Throw validation_error
  /\ exists rest,
    trace (snd (Deploy.deploy_resolved rt bucketName region t1 t2 p)) =
      trace p ++ Exec (probe_command r)
        :: Exec (operation_command (stack_template rt) (operation_at rt r p) one two r)
        :: rest.
Proof.
  intros Hb Hr Hone Htwo H1 H2.
  unfold Deploy.deploy_resolved, Deploy.execCommandSafe, Deploy.log.
  do 16 step.
  rewrite H1, H2. cbn [negb orb]. do 3 step.
  unfold operation_at.
  destruct (execSync rt (trace p) (probe_command r));
    match goal with
    | |- context [snd (bind ?m ?k ?q)] =>
        assert (Hext : extends (bind m k));
          [ unfold Deploy.wait_command, Deploy.log;
            repeat first [apply extends_persist_outputs | apply extends_execCommand
                         | extends_step]
          | assert (Hthrows : throws_only (fun e => e <> validation_error) (bind m k));
            [ unfold Deploy.wait_command, Deploy.log;
              repeat first [apply throws_persist_outputs | apply throws_execCommand
                           | apply throws_only_text; discriminate
                           | throws_step]
            | split;
              [ intros Heq; exact (Hthrows q _ Heq eq_refl)
              | destruct (Hext q) as [rest Hrest]; exists rest; rewrite Hrest;
                cbn [trace]; rewrite <- !app_assoc; reflexivity ] ] ]
    end.
Qed.

(** [persist_outputs] runs one command, the query for the outputs. *)
Lemma persist_outputs_trace (region : value) (r : string) (p : proc) :
  shows region r ->
  trace (snd (Deploy.persist_outputs rt region p)) = trace p ++ [Exec (outputs_query r)].
Proof.
  intros Hr.
  unfold Deploy.persist_outputs, Deploy.execCommand.
  do 3 step.
  destruct (execSync rt (trace p) _) as [outputs | e].
  2: { unfold bind, console_error, when, exit, ret.
       destruct (present (exec_stdout e)), (present (exec_stderr e)); reflexivity. }
  step.
  destruct (JSON_parse rt outputs) as [e | data].
  { reflexivity. }
  step.
  unfold try_catch, fs_writeFileSync, bind at 1 2.
  cbn [trace console files].
  destruct (writeFileSync rt _ _).
  { reflexivity. }
  unfold Deploy.log at 1, console_log at 1.
  match goal with
  | |- context [Deploy.display rt data ?q] =>
      destruct (quiet_display data q) as (o & c & Hrun & _)
  end.
  rewrite Hrun. reflexivity.
Qed.

(** When the query succeeds, its output parses and the file can be written,
    outputs.json holds the serialised outputs; the run then returns when
    the outputs are an array of entries the display can show. *)
Lemma persist_outputs_written (region : value) (r : string) (p : proc)
    (outputs : string) (data : json) :
  shows region r ->
  execSync rt (trace p) (outputs_query r) = ExecOk outputs ->
  JSON_parse rt outputs = inr data ->
  writeFileSync rt (trace p ++ [Exec (outputs_query r)]) (Deploy.outputsFile rt) = None ->
  exists o p',
    Deploy.persist_outputs rt region p = (o, p')
    /\ files p' = <[Deploy.outputsFile rt := Content (JSON_stringify rt data)]> (files p)
    /\ (forall code, o <> Exit code)
    /\ (forall l, data = JArr l -> Forall displayable l -> o = Ret tt).
Proof.
  intros Hr Hexec Hparse Hwrite.
  unfold Deploy.persist_outputs, Deploy.execCommand.
  do 3 step. rewrite Hexec. step. rewrite Hparse. step.
  unfold try_catch, fs_writeFileSync, bind at 1 2.
  cbn [trace console files]. rewrite Hwrite.
  unfold Deploy.log at 1, console_log at 1.
  match goal with
  | |- context [Deploy.display rt data ?q] =>
      destruct (quiet_display data q) as (o & c & Hrun & Ho);
      pose proof (fun l Hl => display_returns l Hl q) as Hall
  end.
  rewrite Hrun. exists o. eexists. split; [reflexivity | ].
  cbn [trace console files]. split; [reflexivity | ]. split; [exact Ho | ].
  intros l -> Hl. destruct (Hall l Hl) as [c' Hrun'].
  rewrite Hrun' in Hrun. injection Hrun as <- _. reflexivity.
Qed.

(** When the query, the parse or the write fails, the process exits with
    status 1 and outputs.json is as before. *)
Lemma persist_outputs_failed (region : value) (r : string) (p : proc) :
  shows region r ->
  match execSync rt (trace p) (outputs_query r) with
  | ExecFailed _ => True
  | ExecOk outputs =>
      match JSON_parse rt outputs with
      | inl _ => True
      | inr _ =>
          writeFileSync rt (trace p ++ [Exec (outputs_query r)]) (Deploy.outputsFile rt)
          <> None
      end
  end ->
  exists p',
    Deploy.persist_outputs rt region p = (Exit 1, p') /\ files p' = files p.
Proof.
  intros Hr H.
  unfold Deploy.persist_outputs, Deploy.execCommand.
  do 3 step.
  destruct (execSync rt (trace p) _) as [outputs | e].
  2: { unfold bind, console_error, when, exit, ret.
       destruct (present (exec_stdout e)), (present (exec_stderr e));
         eexists; split; reflexivity. }
  step.
  destruct (JSON_parse rt outputs) as [e | data].
  { eexists; split; reflexivity. }
  step.
  unfold try_catch, fs_writeFileSync, bind at 1 2.
  cbn [trace console files].
  destruct (writeFileSync rt _ _); [ | congruence].
  eexists; split; reflexivity.
Qed.

(** The test [result.stderr && result.stderr.includes(...)] of the script
    is the test that stderr contains the notice. *)
Lemma no_updates_test (e : exec_error) :
  present (exec_stderr e)
  && includes (shown (exec_stderr e)) "No updates are to be performed"
  = no_updates_reported e.
Proof.
  unfold no_updates_reported, present, shown.
  destruct (exec_stderr e) as [text | ]; [ | reflexivity].
  destruct text; reflexivity.
Qed.

(** The run of [deployStack] up to the stack operation, when the values it
    resolved have a text and the account IDs are present. *)
Lemma deployStack_operation (options : Deploy.deploy_options) (p : proc)
    (previousOutputs : object) (bucket region one two : string) :
  ReadOutputs.readOutputs rt p = (Ret previousOutputs, p) ->
  shows (Deploy.resolve_bucketName env options previousOutputs) bucket ->
  shows (Deploy.resolve_region env options previousOutputs) region ->
  shows (Deploy.resolve_trustAccountOne env options previousOutputs) one ->
  shows (Deploy.resolve_trustAccountTwo env options previousOutputs) two ->
  truthy (Deploy.resolve_trustAccountOne env options previousOutputs) = true ->
  truthy (Deploy.resolve_trustAccountTwo env options previousOutputs) = true ->
  fst (Deploy.deployStack rt env options p) <> Throw validation_error
  /\ exists rest,
    trace (snd (Deploy.deployStack rt env options p)) =
      trace p ++ Exec (probe_command region)
        :: Exec (operation_command (stack_template rt) (operation_at rt region p)
                   one two region)
        :: rest.
Proof.
  intros Hread Hb Hr Hone Htwo H1 H2.
  unfold Deploy.deployStack.
  rewrite (bind_Ret _ _ _ _ _ Hread). step.
  match goal with
  | |- context [Deploy.deploy_resolved rt ?b ?r ?t1 ?t2 ?q] =>
      exact (deploy_resolved_reaches_operation b r t1 t2 bucket region one two q
               Hb Hr Hone Htwo H1 H2)
  end.
Qed.

Lemma or_truthy_r (a b : value) : truthy b = true -> truthy (JS.or a b) = true.
Proof. intros H. unfold JS.or. destruct (truthy a) eqn:Ha; assumption. Qed.

Lemma trustAccountOne_truthy (options : Deploy.deploy_options) (previousOutputs : object) :
  truthy (Deploy.resolve_trustAccountOne env options previousOutputs) = true.
Proof. apply or_truthy_r. reflexivity. Qed.

Lemma trustAccountTwo_truthy (options : Deploy.deploy_options) (previousOutputs : object) :
  truthy (Deploy.resolve_trustAccountTwo env options previousOutputs) = true.
Proof. apply or_truthy_r. reflexivity. Qed.

(** C2. When the create-stack or update-stack command fails and its stderr
    contains "No updates are to be performed", [deployStack] does not exit
    and does not wait: the one command it runs afterwards is the
    describe-stacks query for [Stacks[0].Outputs] of the stack, and when that
    query succeeds, its output parses and the file can be written,
    outputs.json is overwritten with the serialised outputs; for outputs
    that are an array of entries with a key and a value the deploy then
    returns normally.  When the command fails in any other way, the process
    exits with status 1 at once, outputs.json untouched.  The values the
    deploy resolved are values that have a text. *)
Theorem C2_no_updates_is_success_without_wait
    (options : Deploy.deploy_options) (p : proc) (previousOutputs : object)
    (bucket region one two : string) (e : exec_error) :
  ReadOutputs.readOutputs rt p = (Ret previousOutputs, p) ->
  shows (Deploy.resolve_bucketName env options previousOutputs) bucket ->
  shows (Deploy.resolve_region env options previousOutputs) region ->
  shows (Deploy.resolve_trustAccountOne env options previousOutputs) one ->
  shows (Deploy.resolve_trustAccountTwo env options previousOutputs) two ->
  execSync rt
    (trace p
     ++ [Exec ("aws cloudformation describe-stacks --stack-name s3-mcp-infrastructure --region "
               +:+ region)])
    (operation_command (stack_template rt) (operation_at rt region p) one two region)
    = ExecFailed e ->
  (no_updates_reported e = true ->
   exists o p',
     Deploy.deployStack rt env options p = (o, p')
     /\ trace p' =
          trace p ++
          [Exec ("aws cloudformation describe-stacks --stack-name s3-mcp-infrastructure --region "
                 +:+ region);
           Exec (operation_command (stack_template rt) (operation_at rt region p)
                   one two region);
           Exec ("aws cloudformation describe-stacks --stack-name s3-mcp-infrastructure --query 'Stacks[0].Outputs' --output json --region "
                 +:+ region)]
     /\ (forall outputs data,
           execSync rt
             (trace p ++
              [Exec ("aws cloudformation describe-stacks --stack-name s3-mcp-infrastructure --region "
                     +:+ region);
               Exec (operation_command (stack_template rt) (operation_at rt region p)
                       one two region)])
             ("aws cloudformation describe-stacks --stack-name s3-mcp-infrastructure --query 'Stacks[0].Outputs' --output json --region "
              +:+ region)
             = ExecOk outputs ->
           JSON_parse rt outputs = inr data ->
           writeFileSync rt (trace p') (path_join (scripts_dir rt) [".."; "outputs.json"])
             = None ->
           files p' =
             <[path_join (scripts_dir rt) [".."; "outputs.json"]
               := Content (JSON_stringify rt data)]> (files p)
           /\ (forall code, o <> Exit code)
           /\ (forall l, data = JArr l -> Forall displayable l -> o = Ret tt)))
  /\ (no_updates_reported e = false ->
      exists p',
        Deploy.deployStack rt env options p = (Exit 1, p')
        /\ trace p' =
             trace p ++
             [Exec ("aws cloudformation describe-stacks --stack-name s3-mcp-infrastructure --region "
                    +:+ region);
              Exec (operation_command (stack_template rt) (operation_at rt region p)
                      one two region)]
        /\ files p' = files p).
Proof.
  intros Hread Hb Hr Hone Htwo Hfail.
  change ("aws cloudformation describe-stacks --stack-name s3-mcp-infrastructure --region "
          +:+ region) with (probe_command region) in *.
  change ("aws cloudformation describe-stacks --stack-name s3-mcp-infrastructure --query 'Stacks[0].Outputs' --output json --region "
          +:+ region) with (outputs_query region).
  change (path_join (scripts_dir rt) [".."; "outputs.json"]) with (Deploy.outputsFile rt).
  set (b := Deploy.resolve_bucketName env options previousOutputs) in *.
  set (r := Deploy.resolve_region env options previousOutputs) in *.
  set (t1 := Deploy.resolve_trustAccountOne env options previousOutputs) in *.
  set (t2 := Deploy.resolve_trustAccountTwo env options previousOutputs) in *.
  assert (H1 : truthy t1 = true) by apply trustAccountOne_truthy.
  assert (H2 : truthy t2 = true) by apply trustAccountTwo_truthy.
  assert (Hbody : exists q,
             trace q = trace p ++
               [Exec (probe_command region);
                Exec (operation_command (stack_template rt) (operation_at rt region p)
                        one two region)]
             /\ files q = files p
             /\ Deploy.deployStack rt env options p =
                  (if no_updates_reported e
                   then Deploy.persist_outputs rt r
                   else exit 1) q).
  { unfold Deploy.deployStack.
    rewrite (bind_Ret _ _ _ _ _ Hread). step.
    fold b r t1 t2.
    unfold Deploy.deploy_resolved, Deploy.execCommandSafe, Deploy.log.
    do 16 step. rewrite H1, H2. cbn [negb orb]. do 3 step.
    unfold operation_at in Hfail |- *.
    destruct (execSync rt (trace p) (probe_command region));
      rewrite Hfail, no_updates_test;
      destruct (no_updates_reported e).
    1, 3: step; eexists; split; [ | split; [ | reflexivity ] ];
      cbn [trace files]; rewrite <- ?app_assoc; reflexivity.
    all: rewrite ?bind_assoc; unfold bind, console_error, when, exit, ret;
      cbn [trace console files];
      destruct (present (exec_stdout e)), (present (exec_stderr e));
      eexists; (split; [ | split; [ | reflexivity ] ]);
      cbn [trace files]; rewrite <- ?app_assoc; reflexivity. }
  destruct Hbody as (q & Htq & Hfq & Hrun).
  split; intros Hnotice; rewrite Hnotice in Hrun.
  - destruct (Deploy.persist_outputs rt r q) as [o p'] eqn:Hpersist.
    exists o, p'. split; [exact Hrun | ].
    assert (Htp' : trace p' = trace q ++ [Exec (outputs_query region)]).
    { rewrite <- (persist_outputs_trace r region q Hr), Hpersist. reflexivity. }
    split.
    + rewrite Htp', Htq, <- app_assoc. reflexivity.
    + intros outputs data Hquery Hparse Hwrite.
      rewrite <- Htq in Hquery. rewrite Htp' in Hwrite.
      destruct (persist_outputs_written r region q outputs data Hr Hquery Hparse Hwrite)
        as (o' & p'' & Hrun' & Hfiles & Ho & Hall).
      rewrite Hpersist in Hrun'. injection Hrun' as <- <-.
      rewrite Hfiles, Hfq. split; [reflexivity | split; [exact Ho | exact Hall]].
  - exists q. split; [exact Hrun | split; assumption].
Qed.

(** With an account ID missing, the body of [deployStack] throws the error
    of the check after the probe for the stack has run, and before the
    stack operation. *)
Lemma deploy_resolved_validation (bucketName region t1 t2 : value) (b r one two : string)
    (p : proc) :
  shows bucketName b -> shows region r -> shows t1 one -> shows t2 two ->
  truthy t1 && truthy t2 = false ->
  exists q,
    Deploy.deploy_resolved rt bucketName region t1 t2 p = (Throw validation_error, q)
    /\ trace q = trace p ++ [Exec (probe_command r)]
    /\ files q = files p.
Proof.
  intros Hb Hr Hone Htwo H.
  unfold Deploy.deploy_resolved, Deploy.log.
  do 16 step.
  assert (Hif : negb (truthy t1) || negb (truthy t2) = true)
    by (destruct (truthy t1), (truthy t2); cbn in H |- *; congruence).
  rewrite Hif.
  eexists. split; [reflexivity | split; reflexivity].
Qed.

Lemma prefix_append (sub a s : string) :
  String.prefix sub a = true -> String.prefix sub (a +:+ s) = true.
Proof.
  revert a. induction sub as [ | c sub IH]; intros a.
  - intros _. destruct (a +:+ s); reflexivity.
  - destruct a as [ | c' a]; [discriminate | ].
    change (String c' a +:+ s) with (String c' (a +:+ s)). cbn [String.prefix].
    destruct (ascii_dec c c'); [apply IH | discriminate].
Qed.

Lemma includes_append_l (a s sub : string) :
  includes a sub = true -> includes (a +:+ s) sub = true.
Proof.
  induction a as [ | c a IH].
  - cbn [includes]. destruct (String.prefix sub "") eqn:Hp; [ | discriminate].
    intros _. destruct sub; [ | discriminate]. destruct s; reflexivity.
  - change (String c a +:+ s) with (String c (a +:+ s)). cbn [includes].
    destruct (String.prefix sub (String c a)) eqn:Hp.
    + intros _.
      change (String c (a +:+ s)) with (String c a +:+ s).
      rewrite (prefix_append _ _ s Hp). reflexivity.
    + intros H. destruct (String.prefix sub (String c (a +:+ s))); [reflexivity | ].
      exact (IH H).
Qed.

Lemma includes_append_r (a s sub : string) :
  includes s sub = true -> includes (a +:+ s) sub = true.
Proof.
  intros H. induction a as [ | c a IH]; [exact H | ].
  change (String c a +:+ s) with (String c (a +:+ s)).
  cbn [includes]. destruct (String.prefix sub (String c (a +:+ s))); [reflexivity | exact IH].
Qed.

(** The command line of the stack operation gives the parameter
    [YourBucketName] the fixed value, whatever else it carries. *)
Lemma operation_command_bucket_literal (template operation one two region : string) :
  includes (operation_command template operation one two region)
    "ParameterKey=YourBucketName,ParameterValue=s3-mcp-test-bucket-12345 " = true.
Proof.
  unfold operation_command.
  do 10 apply includes_append_r.
  apply includes_append_l. vm_compute. reflexivity.
Qed.

(** C3. The create-stack or update-stack command line gives the parameter
    [YourBucketName] the fixed value [s3-mcp-test-bucket-12345], whatever
    the operation, account IDs and region; and the bucket name [deployStack]
    resolved (from flag, environment or record; a value that has a text, as
    the region and the account IDs are) has no effect on how the run ends,
    on the commands it runs or on the files it leaves: two runs that differ
    in it alone end alike, having run the same commands, the first of which
    is the probe and the second, unless the run stopped there, that command
    line. *)
Theorem C3_bucket_name_parameter_is_fixed
    (bucketName bucketName' region t1 t2 : value) (b b' r one two : string) (p : proc) :
  shows bucketName b -> shows bucketName' b' ->
  shows region r -> shows t1 one -> shows t2 two ->
  (forall operation,
     includes (operation_command (stack_template rt) operation one two r)
       "ParameterKey=YourBucketName,ParameterValue=s3-mcp-test-bucket-12345 " = true)
  /\ fst (Deploy.deploy_resolved rt bucketName region t1 t2 p)
     = fst (Deploy.deploy_resolved rt bucketName' region t1 t2 p)
  /\ trace (snd (Deploy.deploy_resolved rt bucketName region t1 t2 p))
     = trace (snd (Deploy.deploy_resolved rt bucketName' region t1 t2 p))
  /\ files (snd (Deploy.deploy_resolved rt bucketName region t1 t2 p))
     = files (snd (Deploy.deploy_resolved rt bucketName' region t1 t2 p))
  /\ (trace (snd (Deploy.deploy_resolved rt bucketName region t1 t2 p))
       = trace p
         ++ [Exec ("aws cloudformation describe-stacks --stack-name s3-mcp-infrastructure --region "
                   +:+ r)]
      \/ exists rest,
          trace (snd (Deploy.deploy_resolved rt bucketName region t1 t2 p))
          = trace p
            ++ Exec ("aws cloudformation describe-stacks --stack-name s3-mcp-infrastructure --region "
                     +:+ r)
            :: Exec (operation_command (stack_template rt) (operation_at rt r p) one two r)
            :: rest).
Proof.
  intros Hb Hb' Hr Hone Htwo.
  change ("aws cloudformation describe-stacks --stack-name s3-mcp-infrastructure --region "
          +:+ r) with (probe_command r).
  split; [intros operation; apply operation_command_bucket_literal | ].
  destruct (deploy_resolved_ignores_bucketName bucketName bucketName' region t1 t2 b b'
              Hb Hb' p p (same_world_refl p)) as (Ho & Ht & Hf).
  repeat split; try assumption.
  destruct (truthy t1 && truthy t2) eqn:Hboth.
  - right. apply andb_true_iff in Hboth as [H1 H2].
    apply (deploy_resolved_reaches_operation bucketName region t1 t2 b r one two);
      assumption.
  - left.
    destruct (deploy_resolved_validation bucketName region t1 t2 b r one two p
                Hb Hr Hone Htwo Hboth) as (q & Hq & Htq & _).
    rewrite Hq. exact Htq.
Qed.

(** The values [deployStack] resolves from a record of texts are texts. *)
Lemma text_or_absent_getenv (k : string) : text_or_absent (Deploy.getenv env k).
Proof. apply text_or_absent_opt. Qed.

Lemma or_text_or_absent (a b : value) :
  text_or_absent a -> text_or_absent b -> text_or_absent (JS.or a b).
Proof. intros Ha Hb. unfold JS.or. destruct (truthy a); assumption. Qed.


End DeployFacts.

(** ** Option chains of deploy *)

Section OptionFacts.
Variable rt : runtime.
Variable env : gmap string string.

(** [parseArgs] only returns options whose region is set: it starts from
    us-east-1 and exits when a flag left it empty. *)
Lemma parseArgs_region_set (args : list string) (p p' : proc) (options : Deploy.deploy_options) :
  Deploy.parseArgs args p = (Ret options, p') ->
  truthy (Deploy.opt (Deploy.region options)) = true.
Proof.
  unfold Deploy.parseArgs, bind.
  destruct (Deploy.parseArgs_loop args _ p) as [[o | c | e] q]; try discriminate.
  destruct (truthy (Deploy.opt (Deploy.region o))) eqn:Hregion; cbn [negb].
  - intros H. injection H as <- _. exact Hregion.
  - discriminate.
Qed.

(** So the region chain of [deployStack] stops at its first link: neither
    AWS_DEFAULT_REGION nor the record is consulted. *)
Lemma resolve_region_is_option (args : list string) (p p' : proc)
    (options : Deploy.deploy_options) (previousOutputs : object) :
  Deploy.parseArgs args p = (Ret options, p') ->
  Deploy.resolve_region env options previousOutputs = Deploy.opt (Deploy.region options).
Proof.
  intros H. apply parseArgs_region_set in H.
  unfold Deploy.resolve_region, JS.or. rewrite !H. reflexivity.
Qed.

(** Arguments that do not hold the flag leave the region as it was. *)
Lemma parseArgs_loop_keeps_region (n : nat) :
  forall (args : list string) (options options' : Deploy.deploy_options) (p p' : proc),
    (length args <= n)%nat ->
    ~ In "--region" args ->
    Deploy.parseArgs_loop args options p = (Ret options', p') ->
    Deploy.region options' = Deploy.region options.
Proof.
  induction n as [ | n IH]; intros args options options' p p' Hlen Hflag Hrun.
  - destruct args; [ | cbn in Hlen; lia].
    cbn in Hrun. injection Hrun as <- _. reflexivity.
  - destruct args as [ | arg rest]; [cbn in Hrun; injection Hrun as <- _; reflexivity | ].
    cbn [Deploy.parseArgs_loop] in Hrun. cbn [length] in Hlen.
    destruct (String.eqb_spec arg "--region") as [-> | _];
      [exfalso; apply Hflag; left; reflexivity | ].
    assert (Hrest : ~ In "--region" rest) by (intros H; apply Hflag; right; exact H).
    assert (Htail : forall v rest', rest = v :: rest' -> ~ In "--region" rest')
      by (intros v rest' -> H; apply Hrest; right; exact H).
    repeat match type of Hrun with
           | (if String.eqb arg ?flag then _ else _) _ = _ =>
               destruct (String.eqb arg flag)
           end.
    1, 2, 3:
      destruct rest as [ | v rest'];
        [ cbn in Hrun; injection Hrun as <- _; reflexivity
        | apply (IH rest' _ options' p p') in Hrun;
            [exact Hrun | cbn [length] in Hlen; lia | exact (Htail v rest' eq_refl)] ].
    destruct (String.eqb arg "--help" || String.eqb arg "-h").
    + unfold bind, console_log, exit in Hrun. discriminate Hrun.
    + apply (IH rest _ options' p p') in Hrun; [exact Hrun | lia | exact Hrest].
Qed.

(** Without the flag, deploy goes to us-east-1 whatever the environment and
    the record say. *)
Lemma region_without_flag_is_default (args : list string) (p p' : proc)
    (options : Deploy.deploy_options) (previousOutputs : object) :
  ~ In "--region" args ->
  Deploy.parseArgs args p = (Ret options, p') ->
  Deploy.resolve_region env options previousOutputs = str "us-east-1".
Proof.
  intros Hflag Hrun.
  rewrite (resolve_region_is_option args p p' options previousOutputs Hrun).
  unfold Deploy.parseArgs, bind in Hrun.
  destruct (Deploy.parseArgs_loop args _ p) as [[o | c | e] q] eqn:Hloop; try discriminate.
  apply (parseArgs_loop_keeps_region (length args) args _ o p q (le_n _) Hflag) in Hloop.
  destruct (negb (truthy (Deploy.opt (Deploy.region o)))); [discriminate | ].
  injection Hrun as <- _. rewrite Hloop. reflexivity.
Qed.

(** The chains of the two account IDs are the stated precedence. *)
Lemma resolve_trustAccountOne_precedence (options : Deploy.deploy_options) (previousOutputs : object) :
  Deploy.resolve_trustAccountOne env options previousOutputs =
    precedence (Deploy.opt (Deploy.trustAccountOne options))
      (Deploy.getenv env "TRUST_ACCOUNT_ONE")
      (field previousOutputs "TrustPolicyAccountIdOne")
      (str "690332314549").
Proof. reflexivity. Qed.

Lemma resolve_trustAccountTwo_precedence (options : Deploy.deploy_options) (previousOutputs : object) :
  Deploy.resolve_trustAccountTwo env options previousOutputs =
    precedence (Deploy.opt (Deploy.trustAccountTwo options))
      (Deploy.getenv env "TRUST_ACCOUNT_TWO")
      (field previousOutputs "TrustPolicyAccountIdTwo")
      (str "332134949057").
Proof. reflexivity. Qed.

(** C1 (where the code departs from it). Run without flags, with
    AWS_DEFAULT_REGION set to eu-west-1 and no record: [parseArgs] returns
    its options, the stated precedence gives the region eu-west-1, and
    [deployStack] resolves us-east-1; with nothing set at all, the bucket
    name resolves to [undefined], not to a default. *)
Theorem C1_region_default_shadows_environment (p : proc) :
  exists options,
    Deploy.parseArgs [] p = (Ret options, p)
    /\ precedence undefined
         (Deploy.getenv {[ "AWS_DEFAULT_REGION" := "eu-west-1" ]} "AWS_DEFAULT_REGION")
         (field empty_object "Region") (str "us-east-1") = str "eu-west-1"
    /\ Deploy.resolve_region {[ "AWS_DEFAULT_REGION" := "eu-west-1" ]} options empty_object
       = str "us-east-1"
    /\ Deploy.resolve_bucketName ∅ options empty_object = undefined.
Proof.
  eexists. split; [reflexivity | ].
  repeat split; vm_compute; reflexivity.
Qed.

End OptionFacts.
(** ** Writing the record and reading it back *)

Section RoundTrip.
Variable rt : runtime.

Lemma alphanumeric_not_proto (k : string) : alphanumeric k = true -> k <> "__proto__".
Proof. intros H ->. vm_compute in H. discriminate. Qed.

(** Folding the written entries into an object sets the own property of
    every key to the value written last, and leaves the prototype alone,
    when no key is [__proto__]. *)
Lemma reduce_outputs (entries : list json) (pairs : list (string * json)) :
  Forall2 output_of entries pairs ->
  Forall (fun pair => fst pair <> "__proto__") pairs ->
  forall acc, exists record,
    ReadOutputs.reduce entries acc = inr record
    /\ prototype record = prototype acc
    /\ forall k,
         own record !! k =
           match last_written k pairs with
           | Some v => Some (Some v)
           | None => own acc !! k
           end.
Proof.
  induction 1 as [ | entry [k' v'] entries pairs [Hkey Hvalue] _ IH]; intros Hnames acc.
  - exists acc. repeat split.
  - apply Forall_cons in Hnames as [Hname Hnames]. cbn [fst snd] in *.
    cbn [ReadOutputs.reduce]. unfold ReadOutputs.reducer.
    rewrite Hkey, Hvalue. cbn [ToString ToString_json str].
    destruct (IH Hnames (JS.set acc k' (Some v'))) as (record & Hrun & Hproto & Hown).
    exists record. split; [exact Hrun | ].
    assert (Hset : JS.set acc k' (Some v') = Obj (<[k' := Some v']> (own acc)) (prototype acc)).
    { unfold JS.set. apply String.eqb_neq in Hname. rewrite Hname. reflexivity. }
    rewrite Hset in Hproto, Hown. cbn [own prototype] in Hproto, Hown.
    split; [exact Hproto | ].
    intros k. rewrite (Hown k). cbn [last_written].
    destruct (last_written k pairs) as [v | ]; [reflexivity | ].
    destruct (String.eqb_spec k k') as [-> | Hne].
    + rewrite lookup_insert_eq. reflexivity.
    + rewrite lookup_insert_ne by congruence. reflexivity.
Qed.

Lemma last_written_key (pairs : list (string * json)) (k : string) (w : json) :
  last_written k pairs = Some w -> In k (map fst pairs).
Proof.
  revert w. induction pairs as [ | [k1 v1] pairs IH]; intros w Hlast; [discriminate | ].
  cbn [last_written] in Hlast. cbn [map fst].
  destruct (last_written k pairs) as [w' | ]; [right; exact (IH w' eq_refl) | ].
  destruct (String.eqb_spec k k1); [left; congruence | discriminate].
Qed.

Lemma last_written_unique (pairs : list (string * json)) (k : string) (v : json) :
  List.NoDup (map fst pairs) -> In (k, v) pairs -> last_written k pairs = Some v.
Proof.
  induction pairs as [ | [k' v'] pairs IH]; intros Hnodup Hin; [contradiction | ].
  cbn [map fst] in Hnodup. apply NoDup_cons_iff in Hnodup as [Hfresh Hnodup].
  cbn [last_written]. destruct Hin as [Heq | Hin].
  - injection Heq as -> ->.
    destruct (last_written k pairs) as [w | ] eqn:Hlast.
    + exfalso. apply Hfresh. exact (last_written_key pairs k w Hlast).
    + rewrite String.eqb_refl. reflexivity.
  - rewrite (IH Hnodup Hin). reflexivity.
Qed.

Lemma last_written_none (pairs : list (string * json)) (k : string) :
  ~ In k (map fst pairs) -> last_written k pairs = None.
Proof.
  intros Hk. destruct (last_written k pairs) as [w | ] eqn:Hlast; [ | reflexivity].
  exfalso. exact (Hk (last_written_key pairs k w Hlast)).
Qed.

(** An entry holding a key and a value that has a text can be displayed. *)
Lemma output_of_displayable (entries : list json) (pairs : list (string * json)) :
  Forall2 output_of entries pairs ->
  Forall (fun pair => exists s, shows (Some (snd pair)) s) pairs ->
  Forall displayable entries.
Proof.
  induction 1 as [ | entry pair entries pairs [Hkey Hvalue] _ IH]; intros Hshown;
    [constructor | ].
  apply Forall_cons in Hshown as [[s Hs] Hshown].
  constructor; [ | exact (IH Hshown)].
  exists (str (fst pair)), (Some (snd pair)), (fst pair), s.
  repeat split; assumption.
Qed.

(** C8. When deploy fetches the outputs of the stack, an array of entries
    each holding an [OutputKey] and an [OutputValue] (besides what else
    describe-stacks prints for an output) under keys that are the names of
    the outputs (letters and digits, no name twice), writes the array to
    outputs.json (the query, the parse and the write succeeding) and the
    text written parses back to the array, then deploy returns and a read
    of the record that follows returns a mapping in which every key written
    holds exactly the value written for it, and no other key holds
    anything. *)
Theorem C8_record_holds_written_values (region : value) (region_ : string) (p : proc)
    (outputs : string) (entries : list json) (pairs : list (string * json)) :
  shows region region_ ->
  execSync rt (trace p)
    ("aws cloudformation describe-stacks --stack-name s3-mcp-infrastructure --query 'Stacks[0].Outputs' --output json --region "
     +:+ region_) = ExecOk outputs ->
  JSON_parse rt outputs = inr (JArr entries) ->
  Forall2 output_of entries pairs ->
  Forall (fun pair => alphanumeric (fst pair) = true) pairs ->
  List.NoDup (map fst pairs) ->
  Forall (fun pair => exists s, shows (Some (snd pair)) s) pairs ->
  writeFileSync rt
    (trace p
     ++ [Exec ("aws cloudformation describe-stacks --stack-name s3-mcp-infrastructure --query 'Stacks[0].Outputs' --output json --region "
               +:+ region_)])
    (path_join (scripts_dir rt) [".."; "outputs.json"]) = None ->
  JSON_parse rt (JSON_stringify rt (JArr entries)) = inr (JArr entries) ->
  exists p' record,
    Deploy.persist_outputs rt region p = (Ret tt, p')
    /\ files p' !! ReadOutputs.outputs_path rt
       = Some (Content (JSON_stringify rt (JArr entries)))
    /\ ReadOutputs.readOutputs rt p' = (Ret record, p')
    /\ (forall k v, In (k, v) pairs -> field record k = Some v)
    /\ (forall k, ~ In k (map fst pairs) -> field record k = undefined).
Proof.
  intros Hr Hquery Hparse Hentries Hnames Hnodup Hshown Hwrite Hround.
  change ("aws cloudformation describe-stacks --stack-name s3-mcp-infrastructure --query 'Stacks[0].Outputs' --output json --region "
          +:+ region_) with (outputs_query region_) in *.
  change (path_join (scripts_dir rt) [".."; "outputs.json"]) with (Deploy.outputsFile rt)
    in Hwrite.
  destruct (persist_outputs_written rt region region_ p outputs _ Hr Hquery Hparse Hwrite)
    as (o & p' & Hrun & Hfiles & _ & Hall).
  rewrite (Hall _ eq_refl (output_of_displayable entries pairs Hentries Hshown)) in Hrun.
  assert (Hfile : files p' !! ReadOutputs.outputs_path rt
                  = Some (Content (JSON_stringify rt (JArr entries)))).
  { rewrite Hfiles, outputs_path_shared. apply lookup_insert_eq. }
  assert (Hnot_proto : Forall (fun pair => fst pair <> "__proto__") pairs).
  { eapply List.Forall_impl; [ | exact Hnames]. intros pair. apply alphanumeric_not_proto. }
  destruct (reduce_outputs entries pairs Hentries Hnot_proto empty_object)
    as (record & Hreduce & Hproto & Hown).
  exists p', record.
  split; [exact Hrun | ]. split; [exact Hfile | ].
  split; [ | split ].
  - rewrite (readOutputs_content rt p' _ Hfile), Hround.
    unfold ReadOutputs.flatten. rewrite Hreduce. reflexivity.
  - intros k v Hin. unfold field. unfold value in *.
    rewrite (Hown k), (last_written_unique pairs k v Hnodup Hin). reflexivity.
  - intros k Hk. unfold field. unfold value in *.
    rewrite (Hown k), (last_written_none pairs k Hk), Hproto. reflexivity.
Qed.

End RoundTrip.

(** ** Seed *)

Section SeedFacts.
Variable rt : runtime.
Variable env : gmap string string.

(** One upload: the result is that of the outcome, the call the put request
    (unless the file could not be read), and two lines are printed. *)
Lemma uploadFileToS3_run (cfg : s3_config) (bucketName : value) (file : Seed.seed_file)
    (q : proc) :
  Seed.uploadFileToS3 rt cfg bucketName file q =
    match read_file (files q) (Seed.localPath file) with
    | inl e =>
        (Ret (result_of (file, inl e)),
         Proc (trace q) (console q ++ progress_lines rt (file, inl e)) (files q))
    | inr content =>
        (Ret (result_of (file, s3_send rt (trace q)
                                 (put_request rt cfg bucketName (trace q) file content))),
         Proc (trace q ++ [put_request rt cfg bucketName (trace q) file content])
              (console q
               ++ progress_lines rt
                    (file, s3_send rt (trace q)
                             (put_request rt cfg bucketName (trace q) file content)))
              (files q))
    end.
Proof.
  unfold Seed.uploadFileToS3, try_catch, read_file, fs_readFile, Seed.send, put_request,
    progress_lines, bind, console_log, console_error, ret.
  cbn [trace console files fst snd].
  destruct (files q !! Seed.localPath file) as [[e | content] | ];
    cbn [trace console files]; rewrite <- ?app_assoc; try reflexivity.
  destruct (s3_send rt (trace q) _) as [e | etag];
    cbn [trace console files]; rewrite <- ?app_assoc; reflexivity.
Qed.

(** The loop never stops early: its results are those of the outcomes, file
    by file, its calls the put requests, and what it prints the lines of
    each upload. *)
Lemma upload_each_run (cfg : s3_config) (bucketName : value)
    (seed_files : list Seed.seed_file) (q : proc) :
  Seed.upload_each rt cfg bucketName seed_files q =
    (Ret (map result_of (upload_outcomes rt cfg bucketName (files q) (trace q) seed_files)),
     Proc (trace q ++ upload_requests rt cfg bucketName (files q) (trace q) seed_files)
          (console q
           ++ concat (map (progress_lines rt)
                        (upload_outcomes rt cfg bucketName (files q) (trace q) seed_files)))
          (files q)).
Proof.
  revert q. induction seed_files as [ | file rest IH]; intros q.
  - cbn. rewrite !app_nil_r. destruct q; reflexivity.
  - cbn [Seed.upload_each upload_outcomes upload_requests].
    pose proof (uploadFileToS3_run cfg bucketName file q) as Hrun.
    destruct (read_file (files q) (Seed.localPath file)) as [e | content];
      rewrite (bind_Ret _ _ _ _ _ Hrun), (bind_Ret _ _ _ _ _ (IH _));
      cbn [trace console files map concat];
      unfold ret; rewrite <- ?app_assoc; reflexivity.
Qed.

Lemma prints_ret : prints (ret tt) [].
Proof. intros p. unfold ret. rewrite app_nil_r. destruct p; reflexivity. Qed.

Lemma prints_console_log (s : string) : prints (console_log s) [Out s].
Proof. intros p. reflexivity. Qed.

Lemma prints_bind (m k : M unit) (l1 l2 : list line) :
  prints m l1 -> prints k l2 -> prints (m ;;; k) (l1 ++ l2).
Proof.
  intros Hm Hk p. unfold bind. rewrite Hm, Hk. cbn [trace console files].
  rewrite <- app_assoc. reflexivity.
Qed.

Lemma prints_when (b : bool) (m : M unit) (l : list line) :
  prints m l -> prints (when b m) (if b then l else []).
Proof. intros H. destruct b; [exact H | exact prints_ret]. Qed.

Lemma prints_for_each {A} (f : A -> string) (l : list A) :
  prints (Seed.for_each (fun x => console_log (f x)) l) (map (fun x => Out (f x)) l).
Proof.
  induction l as [ | x l IH]; cbn [Seed.for_each map]; [exact prints_ret | ].
  apply (prints_bind _ _ [Out (f x)]); [apply prints_console_log | exact IH].
Qed.

Lemma prints_lines (m : M unit) (l l' : list line) : prints m l -> l = l' -> prints m l'.
Proof. intros H <-. exact H. Qed.

Lemma successful_of_results (outcomes : list (Seed.seed_file * (error + option string))) :
  Seed.successful_of (map result_of outcomes) = map result_of (List.filter uploaded outcomes).
Proof.
  unfold Seed.successful_of.
  induction outcomes as [ | [file [e | etag]] outcomes IH]; [reflexivity | | ];
    cbn; rewrite IH; reflexivity.
Qed.

Lemma failed_of_results (outcomes : list (Seed.seed_file * (error + option string))) :
  Seed.failed_of (map result_of outcomes) = map result_of (List.filter upload_failed outcomes).
Proof.
  unfold Seed.failed_of.
  induction outcomes as [ | [file [e | etag]] outcomes IH]; [reflexivity | | ];
    cbn; rewrite IH; reflexivity.
Qed.

Lemma total_of_results (outcomes : list (Seed.seed_file * (error + option string))) (n : nat) :
  fold_left (fun sum r => (sum + Seed.r_size r)%nat) (map result_of outcomes) n
  = (n + total_size outcomes)%nat.
Proof.
  revert n. induction outcomes as [ | [file answer] outcomes IH]; intros n.
  - cbn. lia.
  - cbn [map fold_left]. rewrite IH. unfold total_size, list_sum.
    cbn [map fold_right fst].
    destruct answer; cbn [result_of Seed.r_size]; lia.
Qed.

Lemma uploaded_line_result (outcome : Seed.seed_file * (error + option string)) :
  uploaded outcome = true ->
  Out ("   ✅ " +:+ Seed.r_fileName (result_of outcome) +:+ " - ETag: "
       +:+ shown_text (Seed.etag (result_of outcome)))
  = uploaded_line outcome.
Proof. destruct outcome as [file [e | [tag | ]]]; [discriminate | reflexivity ..]. Qed.

Lemma failed_line_result (outcome : Seed.seed_file * (error + option string)) :
  upload_failed outcome = true ->
  Out ("   ❌ " +:+ Seed.r_fileName (result_of outcome) +:+ " - Error: "
       +:+ shown_text (Seed.error_text (result_of outcome)))
  = failed_line outcome.
Proof. destruct outcome as [file [e | tag]]; [reflexivity | discriminate]. Qed.

Lemma map_filter_ext {A B} (f g : A -> B) (keep : A -> bool) (l : list A) :
  (forall x, keep x = true -> f x = g x) ->
  map f (List.filter keep l) = map g (List.filter keep l).
Proof.
  intros H. induction l as [ | x l IH]; [reflexivity | ].
  cbn [List.filter]. destruct (keep x) eqn:Hx; [ | exact IH].
  cbn [map]. rewrite IH, (H x Hx). reflexivity.
Qed.

(** The summary of the results of a run is the summary of its outcomes:
    the uploads that went through under their heading, each with its entity
    tag, and those that failed under theirs, each with the text of its
    error. *)
Lemma print_summary_prints (outcomes : list (Seed.seed_file * (error + option string))) :
  prints (Seed.print_summary rt (map result_of outcomes)) (summary_lines rt outcomes).
Proof.
  unfold Seed.print_summary. cbv zeta.
  rewrite successful_of_results, failed_of_results.
  eapply prints_lines.
  { repeat first
      [ apply prints_console_log
      | apply prints_for_each
      | apply prints_when
      | apply prints_bind ]. }
  unfold summary_lines.
  rewrite !length_map, !map_map, total_of_results.
  rewrite (map_filter_ext _ uploaded_line uploaded outcomes uploaded_line_result).
  rewrite (map_filter_ext _ failed_line upload_failed outcomes failed_line_result).
  destruct (List.filter uploaded outcomes) as [ | done1 done];
    destruct (List.filter upload_failed outcomes) as [ | failed1 failed];
    reflexivity.
Qed.

Lemma checkBucketAccess_reachable (cfg : s3_config) (bucketName : value)
    (response : option string) (q : proc) :
  s3_send rt (trace q) (ListObjectsV2 cfg bucketName 1) = inr response ->
  Seed.checkBucketAccess rt cfg bucketName q =
    (Ret true, Proc (trace q ++ [ListObjectsV2 cfg bucketName 1]) (console q) (files q)).
Proof.
  intros H. unfold Seed.checkBucketAccess, try_catch, bind, Seed.send.
  rewrite H. reflexivity.
Qed.

Lemma getFilesFromDirectory_listed (directory : path) (entries : list dirent)
    (seed_files : list Seed.seed_file) (q : proc) :
  readdir rt directory = inr entries ->
  Seed.stat_each directory entries = inr seed_files ->
  Seed.getFilesFromDirectory rt directory q = (Ret seed_files, q).
Proof.
  intros Hdir Hstat. unfold Seed.getFilesFromDirectory, try_catch, bind, lift.
  rewrite Hdir. cbn. rewrite Hstat. reflexivity.
Qed.

Lemma upload_outcomes_files (cfg : s3_config) (bucketName : value) (fs : gmap path file)
    (seed_files : list Seed.seed_file) (t : list event) :
  map fst (upload_outcomes rt cfg bucketName fs t seed_files) = seed_files.
Proof.
  revert t. induction seed_files as [ | file rest IH]; intros t; [reflexivity | ].
  cbn [upload_outcomes].
  destruct (read_file fs (Seed.localPath file)); cbn [map fst]; rewrite IH; reflexivity.
Qed.

(** Every outcome is an upload that went through or one that failed. *)
Lemma uploaded_or_failed (outcomes : list (Seed.seed_file * (error + option string))) :
  (length (List.filter uploaded outcomes) + length (List.filter upload_failed outcomes)
   = length outcomes)%nat.
Proof.
  induction outcomes as [ | [file [e | tag]] outcomes IH]; [reflexivity | | ];
    cbn [List.filter uploaded upload_failed snd negb length]; lia.
Qed.

(** The region the heading shows: AWS_REGION when it is set, else the
    default. *)
Lemma region_shown :
  shows (JS.or (Seed.getenv env "AWS_REGION") (str Seed.DEFAULT_REGION))
    (first_given [Seed.getenv env "AWS_REGION"] "us-east-1").
Proof.
  unfold Seed.getenv, JS.or, first_given, given, truthy, shows.
  destruct (env !! "AWS_REGION") as [r | ]; [ | reflexivity].
  cbn. destruct (String.eqb r ""); reflexivity.
Qed.

Local Ltac step ::= step_by ltac:(apply text_run; apply region_shown).

(** C7. A seed run that reaches its bucket and enumerates N files uploads
    them one after the other, whatever happens to each: after the listing
    that checks the bucket its calls are the put requests, one for every
    file that could be read, and every file has its outcome (the error of
    reading or sending it, or the entity tag of the response), N outcomes
    in the order of the files, each an upload that went through or one that
    failed.  What the run prints is, after its opening lines, the two lines
    of each upload and then the summary: under "Successful uploads" exactly
    one line for each upload that went through, with its entity tag, and
    under "Failed uploads" exactly one line for each of the K that failed,
    with the text of its error.  The process ends with a status other than
    0 exactly when K is positive. *)
Theorem C7_seed_reports_every_upload (bucketName : value) (bucket : string)
    (outputs : object) (p : proc) (response : option string)
    (entries : list dirent) (seed_files : list Seed.seed_file) :
  shows bucketName bucket ->
  s3_send rt (trace p)
    (ListObjectsV2 (Seed.createS3Client env (field outputs "Region")) bucketName 1)
    = inr response ->
  readdir rt (Seed.SEED_DIRECTORY rt) = inr entries ->
  Seed.stat_each (Seed.SEED_DIRECTORY rt) entries = inr seed_files ->
  exists o p',
    Seed.uploadToS3 rt env bucketName outputs p = (o, p')
    /\ trace p' =
         trace p
         ++ ListObjectsV2 (Seed.createS3Client env (field outputs "Region")) bucketName 1
         :: seed_requests rt env bucketName outputs p seed_files
    /\ map fst (seed_outcomes rt env bucketName outputs p seed_files) = seed_files
    /\ (length (List.filter uploaded (seed_outcomes rt env bucketName outputs p seed_files))
        + length (List.filter upload_failed
                    (seed_outcomes rt env bucketName outputs p seed_files))
        = length seed_files)%nat
    /\ console p' =
         console p
         ++ opening_lines rt env bucket seed_files
         ++ match seed_files with
            | [] => []
            | _ =>
                concat (map (progress_lines rt)
                          (seed_outcomes rt env bucketName outputs p seed_files))
                ++ summary_lines rt (seed_outcomes rt env bucketName outputs p seed_files)
            end
    /\ (exit_code o <> 0 <->
        (0 < length (List.filter upload_failed
                       (seed_outcomes rt env bucketName outputs p seed_files)))%nat).
Proof.
  intros Hb Hlist Hdir Hstat.
  set (outcomes := seed_outcomes rt env bucketName outputs p seed_files).
  assert (Hfiles : map fst outcomes = seed_files) by apply upload_outcomes_files.
  assert (Hlen : (length (List.filter uploaded outcomes)
                  + length (List.filter upload_failed outcomes) = length seed_files)%nat).
  { rewrite uploaded_or_failed, <- (length_map fst outcomes), Hfiles. reflexivity. }
  unfold Seed.uploadToS3.
  do 7 step.
  destruct seed_files as [ | file1 files1].
  - (* nothing to upload *)
    eexists _, _. split.
    { apply try_catch_Ret.
      step.
      step_by ltac:(eapply checkBucketAccess_reachable; exact Hlist).
      do 3 step.
      step_by ltac:(eapply getFilesFromDirectory_listed; [exact Hdir | exact Hstat]).
      reflexivity. }
    split; [reflexivity | ].
    split; [exact Hfiles | ]. split; [exact Hlen | ].
    split.
    + cbn [console]. unfold opening_lines. rewrite <- ?app_assoc. reflexivity.
    + subst outcomes. cbn. split; [congruence | lia].
  - eexists _, _. split.
    { apply try_catch_Exit.
      step.
      step_by ltac:(eapply checkBucketAccess_reachable; exact Hlist).
      do 3 step.
      step_by ltac:(eapply getFilesFromDirectory_listed; [exact Hdir | exact Hstat]).
      cbn [length Nat.eqb].
      step. step_by ltac:(apply prints_for_each). do 2 step.
      step_by ltac:(apply upload_each_run).
      cbn [trace files].
      fold (seed_outcomes rt env bucketName outputs p (file1 :: files1)).
      fold outcomes.
      step_by ltac:(apply print_summary_prints).
      reflexivity. }
    split.
    { cbn [trace]. rewrite <- app_assoc. reflexivity. }
    split; [exact Hfiles | ]. split; [exact Hlen | ].
    split.
    + cbn [console]. unfold opening_lines.
      rewrite <- ?app_assoc. cbn [app]. rewrite <- ?app_assoc. reflexivity.
    + rewrite failed_of_results, length_map.
      destruct (List.filter upload_failed outcomes); cbn; split; intros; try lia; congruence.
Qed.

Lemma extends_prints (m : M unit) (lines : list line) : prints m lines -> extends m.
Proof. intros H p. exists []. rewrite (H p). cbn. symmetry. apply app_nil_r. Qed.

Lemma extends_upload_each (cfg : s3_config) (bucketName : value)
    (seed_files : list Seed.seed_file) :
  extends (Seed.upload_each rt cfg bucketName seed_files).
Proof. intros q. rewrite upload_each_run. eexists. reflexivity. Qed.

Lemma extends_getFilesFromDirectory (directory : path) :
  extends (Seed.getFilesFromDirectory rt directory).
Proof. unfold Seed.getFilesFromDirectory. repeat extends_step. Qed.

Lemma extends_print_summary (results : list Seed.upload_result) :
  extends (Seed.print_summary rt results).
Proof.
  eapply extends_prints. unfold Seed.print_summary. cbv zeta.
  repeat first
    [ apply prints_console_log
    | apply prints_for_each
    | apply prints_when
    | apply prints_bind ].
Qed.

Lemma checkBucketAccess_unreachable (cfg : s3_config) (bucketName : value) (e : error)
    (q : proc) :
  s3_send rt (trace q) (ListObjectsV2 cfg bucketName 1) = inl e ->
  exists e',
    Seed.checkBucketAccess rt cfg bucketName q =
      (Throw e', Proc (trace q ++ [ListObjectsV2 cfg bucketName 1]) (console q) (files q)).
Proof.
  intros H. unfold Seed.checkBucketAccess, try_catch, bind, Seed.send, text, lift.
  rewrite H.
  destruct (String.eqb (name e) "NoSuchBucket");
    [ | destruct (String.eqb (name e) "AccessDenied")];
    destruct (ToString bucketName); eexists; reflexivity.
Qed.

(** The first call of [uploadToS3], for a bucket name that has a text, is
    the listing that checks the bucket. *)
Lemma uploadToS3_calls_first (bucketName : value) (bucket : string) (outputs : object) :
  shows bucketName bucket ->
  calls_first
    (ListObjectsV2 (Seed.createS3Client env (field outputs "Region")) bucketName 1)
    (Seed.uploadToS3 rt env bucketName outputs).
Proof.
  intros Hb p. unfold Seed.uploadToS3. do 7 step.
  erewrite try_catch_bind_Ret by reflexivity. cbn [trace console files].
  destruct (s3_send rt (trace p)
              (ListObjectsV2 (Seed.createS3Client env (field outputs "Region")) bucketName 1))
    as [e | response] eqn:Hsend.
  - match goal with
    | |- context [try_catch (bind (Seed.checkBucketAccess _ ?cfg ?b) _) _ ?q] =>
        destruct (checkBucketAccess_unreachable cfg b e q Hsend) as [e' Hcheck]
    end.
    rewrite (try_catch_bind_Throw _ _ _ _ _ _ Hcheck).
    eexists. reflexivity.
  - erewrite try_catch_bind_Ret
      by (eapply checkBucketAccess_reachable; exact Hsend).
    match goal with
    | |- context [snd (try_catch ?b ?h ?q)] =>
        assert (Hext : extends (try_catch b h));
          [ | destruct (Hext q) as [rest Hrest]; exists rest; rewrite Hrest;
              cbn [trace]; rewrite <- app_assoc; reflexivity ]
    end.
    repeat first
      [ apply extends_getFilesFromDirectory
      | apply extends_upload_each
      | apply extends_print_summary
      | apply (extends_prints _ _ (prints_for_each _ _))
      | extends_step ].
Qed.

(** A name of more than three characters that breaks the pattern stops the
    seed run before any call. *)
Lemma seed_rejects_long_malformed (name : string) (args : list string) (p : proc) :
  matches Seed.bucket_pattern name = false ->
  (3 < js_length name)%nat ->
  exists p', Seed.main rt env (name :: args) p = (Exit 1, p') /\ trace p' = trace p.
Proof.
  intros Hpattern Hlong.
  assert (Hname : truthy (str name) = true).
  { apply truthy_str. intros ->. cbn in Hlong. lia. }
  destruct (readOutputs_returns rt p) as [outputs Hread].
  unfold Seed.main. rewrite (bind_Ret _ _ _ _ _ Hread).
  cbn [head fmap option_fmap option_map]. fold (str name).
  unfold JS.or. rewrite !Hname. cbn [negb].
  do 2 step.
  rewrite Hpattern. cbn [negb str Seed.longer_than_3].
  apply Nat.ltb_lt in Hlong. rewrite Hlong. step.
  eexists. split; reflexivity.
Qed.

(** A name that passes the check of the name goes on to the bucket: the
    first call of the run is the listing of that bucket. *)
Lemma seed_main_reaches_bucket (name : string) (args : list string) (p : proc) :
  name <> "" ->
  matches Seed.bucket_pattern name = true \/ (js_length name <= 3)%nat ->
  exists outputs rest,
    ReadOutputs.readOutputs rt p = (Ret outputs, p)
    /\ trace (snd (Seed.main rt env (name :: args) p)) =
         trace p
         ++ ListObjectsV2 (Seed.createS3Client env (field outputs "Region")) (str name) 1
         :: rest.
Proof.
  intros Hname Hpass. apply truthy_str in Hname.
  destruct (readOutputs_returns rt p) as [outputs Hread].
  destruct (uploadToS3_calls_first (str name) name outputs (shows_str name) p)
    as [rest Hrest].
  exists outputs, rest. split; [exact Hread | ].
  unfold Seed.main. rewrite (bind_Ret _ _ _ _ _ Hread).
  cbn [head fmap option_fmap option_map]. fold (str name).
  unfold JS.or. rewrite !Hname. cbn [negb].
  do 2 step.
  assert (Hvalid : (if negb (matches Seed.bucket_pattern name)
                    then Seed.longer_than_3 rt (str name)
                    else ret false) = ret false).
  { destruct Hpass as [Hmatch | Hshort].
    - rewrite Hmatch. reflexivity.
    - cbn [str Seed.longer_than_3].
      assert (Hnot : (3 <? js_length name)%nat = false) by (apply Nat.ltb_ge; exact Hshort).
      rewrite Hnot. destruct (negb _); reflexivity. }
  rewrite Hvalid. do 2 step. exact Hrest.
Qed.

(** C9 (where the code departs from it). The name AB breaks the stated
    rules (two characters, capitals) and does not match the pattern of the
    script; yet a seed run given it passes the check of the name, whose
    second condition asks for more than three characters, and goes on to
    access the bucket: its first call is the listing of bucket AB. *)
Theorem C9_short_malformed_name_reaches_bucket (p : proc) :
  matches Seed.bucket_pattern "AB" = false
  /\ exists outputs rest,
      ReadOutputs.readOutputs rt p = (Ret outputs, p)
      /\ trace (snd (Seed.main rt env ["AB"] p)) =
           trace p
           ++ ListObjectsV2 (Seed.createS3Client env (field outputs "Region")) (str "AB") 1
           :: rest.
Proof.
  split; [vm_compute; reflexivity | ].
  apply seed_main_reaches_bucket; [discriminate | right; vm_compute; lia].
Qed.

End SeedFacts.

(** ** The workflows without a record *)

Section RecordFacts.
Variable rt : runtime.

(** Teardown has no other source for the bucket name than the record. *)
Lemma teardown_needs_bucket_name (options : Teardown.teardown_options) (p : proc)
    (previousOutputs : object) :
  ReadOutputs.readOutputs rt p = (Ret previousOutputs, p) ->
  truthy (field previousOutputs "BucketName") = false ->
  Teardown.teardown rt options p =
    (Exit 1,
     Proc (trace p)
       (console p
        ++ [ Err "‚ùå Error: Could not determine bucket name from outputs.json";
             Err "Please ensure the stack was deployed successfully" ])
       (files p)).
Proof.
  intros Hread Hbucket. unfold Teardown.teardown.
  rewrite (bind_Ret _ _ _ _ _ Hread). cbv zeta. rewrite Hbucket. cbn [negb].
  unfold bind, console_error, exit. cbn [trace console files].
  rewrite <- app_assoc. reflexivity.
Qed.

(** Nor has seed, when it is given no argument. *)
Lemma seed_needs_bucket_name (env : gmap string string) (args : list string) (p : proc)
    (outputs : object) :
  ReadOutputs.readOutputs rt p = (Ret outputs, p) ->
  truthy (JStr <$> head args) = false ->
  truthy (field outputs "BucketName") = false ->
  exists p', Seed.main rt env args p = (Exit 1, p') /\ trace p' = trace p /\ files p' = files p.
Proof.
  intros Hread Hargument Hbucket. unfold Seed.main.
  rewrite (bind_Ret _ _ _ _ _ Hread). cbv zeta.
  unfold JS.or. rewrite Hargument, Hbucket. cbn [negb].
  unfold bind, console_error, exit. cbn [trace console files].
  eexists. split; [reflexivity | split; reflexivity].
Qed.

(** A name that matches the pattern is not empty. *)
Lemma matches_bucket_pattern_not_empty (name : string) :
  matches Seed.bucket_pattern name = true -> name <> "".
Proof. intros H ->. vm_compute in H. discriminate. Qed.

(** C10 (as amended). Whatever the state of outputs.json, [readOutputs]
    returns (it neither throws nor exits) and leaves the process untouched.
    When there is no record to read (the file is absent, cannot be read,
    does not hold JSON, or holds JSON that is no array of entries), what it
    returns is the empty mapping, and a workflow goes on with its next
    source where it has one: deploy probes the stack in the region, and
    runs the stack operation with the account IDs, that the flags and the
    environment give, else with the defaults; seed given a well-formed name
    as argument goes to the bucket of that name, in the region of the
    client's default.  Where the record is the only source the workflow
    fails: teardown exits with status 1 before any command, and so does
    seed given no argument. *)
Theorem C10_readOutputs_never_throws (p : proc) :
  (exists o, ReadOutputs.readOutputs rt p = (Ret o, p))
  /\ (no_record rt p ->
      ReadOutputs.readOutputs rt p = (Ret empty_object, p)
      /\ (forall env options region one two,
            region = first_given [ Deploy.opt (Deploy.region options);
                                   Deploy.getenv env "AWS_DEFAULT_REGION" ] "us-east-1" ->
            one = first_given [ Deploy.opt (Deploy.trustAccountOne options);
                                Deploy.getenv env "TRUST_ACCOUNT_ONE" ] "690332314549" ->
            two = first_given [ Deploy.opt (Deploy.trustAccountTwo options);
                                Deploy.getenv env "TRUST_ACCOUNT_TWO" ] "332134949057" ->
            exists rest,
              trace (snd (Deploy.deployStack rt env options p)) =
                trace p
                ++ Exec ("aws cloudformation describe-stacks --stack-name s3-mcp-infrastructure --region "
                         +:+ region)
                :: Exec (operation_command (stack_template rt) (operation_at rt region p)
                           one two region)
                :: rest)
      /\ (forall env name args,
            matches Seed.bucket_pattern name = true ->
            exists rest,
              trace (snd (Seed.main rt env (name :: args) p)) =
                trace p
                ++ ListObjectsV2 (Seed.createS3Client env undefined) (str name) 1 :: rest)
      /\ (forall options,
            exists p',
              Teardown.teardown rt options p = (Exit 1, p')
              /\ trace p' = trace p /\ files p' = files p)
      /\ (forall env,
            exists p',
              Seed.main rt env [] p = (Exit 1, p')
              /\ trace p' = trace p /\ files p' = files p)).
Proof.
  split; [apply readOutputs_returns | ].
  intros Hnone. pose proof (readOutputs_no_record rt p Hnone) as Hread.
  split; [exact Hread | ].
  split; [ | split; [ | split ] ].
  - intros env options region one two -> -> ->.
    assert (Htexts : texts_only empty_object) by (intros k; left; reflexivity).
    assert (Hbucket : text_or_absent (Deploy.resolve_bucketName env options empty_object)).
    { repeat apply or_text_or_absent;
        [apply text_or_absent_opt | apply text_or_absent_getenv | apply Htexts]. }
    destruct (text_or_absent_shows _ Hbucket) as [bucket Hb].
    refine (proj2 (deployStack_operation rt env options p empty_object bucket _ _ _
                     Hread Hb _ _ _
                     (trustAccountOne_truthy env _ _) (trustAccountTwo_truthy env _ _))).
    + unfold shows.
      rewrite (precedence_first_given _ _ _ "us-east-1"
                 (text_or_absent_opt _) (text_or_absent_getenv env _) (Htexts "Region")
               : Deploy.resolve_region env options empty_object = _).
      reflexivity.
    + unfold shows.
      rewrite (precedence_first_given _ _ _ "690332314549"
                 (text_or_absent_opt _) (text_or_absent_getenv env _)
                 (Htexts "TrustPolicyAccountIdOne")
               : Deploy.resolve_trustAccountOne env options empty_object = _).
      reflexivity.
    + unfold shows.
      rewrite (precedence_first_given _ _ _ "332134949057"
                 (text_or_absent_opt _) (text_or_absent_getenv env _)
                 (Htexts "TrustPolicyAccountIdTwo")
               : Deploy.resolve_trustAccountTwo env options empty_object = _).
      reflexivity.
  - intros env name args Hmatch.
    destruct (seed_main_reaches_bucket rt env name args p
                (matches_bucket_pattern_not_empty name Hmatch) (or_introl Hmatch))
      as (outputs & rest & Hread' & Hrest).
    rewrite Hread in Hread'. injection Hread' as <-.
    exists rest. exact Hrest.
  - intros options. eexists. split; [ | split].
    + apply (teardown_needs_bucket_name options p empty_object Hread). reflexivity.
    + reflexivity.
    + reflexivity.
  - intros env.
    apply (seed_needs_bucket_name env [] p empty_object Hread); reflexivity.
Qed.

End RecordFacts.

(** ** The theorems at work *)

Section Examples.
Import Demo Worlds.

Lemma deployed_read :
  ReadOutputs.readOutputs first_fails (start deployed) = (Ret deployed_record, start deployed).
Proof. vm_compute. reflexivity. Qed.


Lemma C10_no_record_examples :
  ReadOutputs.readOutputs quiet (start ∅) = (Ret empty_object, start ∅)
  /\ ReadOutputs.readOutputs quiet (start unreadable) = (Ret empty_object, start unreadable)
  /\ ReadOutputs.readOutputs quiet (start malformed) = (Ret empty_object, start malformed)
  /\ (exists rest,
        trace (snd (Deploy.deployStack quiet {[ "AWS_DEFAULT_REGION" := "eu-west-1" ]}
                      (Deploy.Options None None (Some "111111111111") None)
                      (start malformed))) =
          Exec "aws cloudformation describe-stacks --stack-name s3-mcp-infrastructure --region eu-west-1"
          :: Exec (operation_command "/repo/stack.yml" "update-stack"
                     "111111111111" "332134949057" "eu-west-1")
          :: rest)
  /\ (exists p',
        Teardown.teardown quiet (Teardown.Options (Some "us-east-1") true) (start unreadable)
          = (Exit 1, p')
        /\ trace p' = []).
Proof.
  assert (Habsent : no_record quiet (start ∅)) by (left; vm_compute; reflexivity).
  assert (Hunreadable : no_record quiet (start unreadable)).
  { right. left. exists (Error "Error" "EACCES: permission denied"). vm_compute. reflexivity. }
  assert (Hmalformed : no_record quiet (start malformed)).
  { right. right. left. exists "{ not json", SyntaxError. split; vm_compute; reflexivity. }
  split; [exact (proj1 (proj2 (C10_readOutputs_never_throws quiet (start ∅)) Habsent)) | ].
  split;
    [exact (proj1 (proj2 (C10_readOutputs_never_throws quiet (start unreadable)) Hunreadable))
    | ].
  destruct (proj2 (C10_readOutputs_never_throws quiet (start malformed)) Hmalformed)
    as (Hread & Hdeploy & _).
  split; [exact Hread | ].
  split.
  - destruct (Hdeploy {[ "AWS_DEFAULT_REGION" := "eu-west-1" ]}
                (Deploy.Options None None (Some "111111111111") None)
                "eu-west-1" "111111111111" "332134949057")
      as [rest Hrest]; [vm_compute; reflexivity .. | ].
    exists rest. exact Hrest.
  - destruct (proj2 (C10_readOutputs_never_throws quiet (start unreadable)) Hunreadable)
      as (_ & _ & _ & Hteardown & _).
    destruct (Hteardown (Teardown.Options (Some "us-east-1") true)) as (p' & Hrun & Htrace & _).
    exists p'. split; [exact Hrun | exact Htrace].
Defined.

(** C10, as the specification states it, fails for teardown: with no
    outputs.json the record read is empty, and teardown, which has no other
    source for the bucket name, does not go on to a next source but prints
    that it could not determine the bucket name and exits with status 1;
    run from its [main] with [--force], it does so after the two preflight
    commands. *)
Lemma C10_teardown_fails_without_the_record :
  files (start ∅) !! ReadOutputs.outputs_path quiet = None
  /\ ReadOutputs.readOutputs quiet (start ∅) = (Ret empty_object, start ∅)
  /\ Teardown.teardown quiet (Teardown.Options (Some "us-east-1") true) (start ∅) =
       (Exit 1,
        Proc []
          [ Err "‚ùå Error: Could not determine bucket name from outputs.json";
            Err "Please ensure the stack was deployed successfully" ]
          ∅)
  /\ exit_code (fst (Teardown.main quiet ["--force"] (start ∅))) = 1
  /\ trace (snd (Teardown.main quiet ["--force"] (start ∅))) =
       [Exec "aws --version"; Exec "aws sts get-caller-identity"].
Proof.
  repeat split; vm_compute; reflexivity.
Qed.

Lemma C6_teardown_example :
  exists p',
    Teardown.teardown first_fails (Teardown.Options (Some "us-east-1") true) (start deployed)
      = (Ret tt, p')
    /\ trace p' =
         [Exec "aws cloudformation describe-stacks --stack-name s3-mcp-infrastructure --region us-east-1"]
    /\ files p' = deployed.
Proof.
  destruct (C6_teardown_without_stack_is_noop first_fails
              (Teardown.Options (Some "us-east-1") true) (start deployed)
              deployed_record "my-bucket" "us-east-1" denied)
    as (p' & Hrun & _ & Htrace & Hfiles).
  - exact deployed_read.
  - vm_compute. reflexivity.
  - vm_compute. reflexivity.
  - vm_compute. reflexivity.
  - vm_compute. reflexivity.
  - exists p'. split; [exact Hrun | split; [exact Htrace | exact Hfiles]].
Defined.

Lemma C2_no_updates_examples :
  (exists p',
     Deploy.deployStack (update_fails notice) ∅ defaults (start ∅) = (Ret tt, p')
     /\ trace p' =
          [Exec "aws cloudformation describe-stacks --stack-name s3-mcp-infrastructure --region us-east-1";
           Exec (operation_command "/repo/stack.yml" "update-stack"
                   "690332314549" "332134949057" "us-east-1");
           Exec "aws cloudformation describe-stacks --stack-name s3-mcp-infrastructure --query 'Stacks[0].Outputs' --output json --region us-east-1"]
     /\ files p' = {[ record_path := Content (stringify 0 stack_outputs) ]})
  /\ (exists p',
       Deploy.deployStack (update_fails denied) ∅ defaults (start ∅) = (Exit 1, p')
       /\ files p' = ∅).
Proof.
  split.
  - destruct (C2_no_updates_is_success_without_wait (update_fails notice) ∅ defaults
                (start ∅) empty_object "undefined" "us-east-1" "690332314549" "332134949057"
                notice) as [Hnotice _];
      [vm_compute; reflexivity .. | ].
    destruct Hnotice as (o & p' & Hrun & Htrace & Hwritten); [vm_compute; reflexivity | ].
    destruct (Hwritten (stringify 0 stack_outputs) stack_outputs)
      as (Hfiles & _ & Hreturns);
      [vm_compute; reflexivity | vm_compute; reflexivity
      | rewrite Htrace; vm_compute; reflexivity | ].
    assert (Ho : o = Ret tt).
    { apply (Hreturns _ eq_refl).
      repeat constructor; eexists _, _, _, _; repeat split; reflexivity. }
    exists p'. split; [rewrite <- Ho; exact Hrun | ].
    split; [rewrite Htrace; vm_compute; reflexivity | ].
    rewrite Hfiles. vm_compute. reflexivity.
  - destruct (C2_no_updates_is_success_without_wait (update_fails denied) ∅ defaults
                (start ∅) empty_object "undefined" "us-east-1" "690332314549" "332134949057"
                denied) as [_ Hother];
      [vm_compute; reflexivity .. | ].
    destruct Hother as (p' & Hrun & _ & Hfiles); [vm_compute; reflexivity | ].
    exists p'. split; [exact Hrun | exact Hfiles].
Defined.

Lemma C3_bucket_name_example :
  includes (operation_command "/repo/stack.yml" "create-stack"
              "690332314549" "332134949057" "us-east-1")
    "ParameterKey=YourBucketName,ParameterValue=s3-mcp-test-bucket-12345 " = true
  /\ fst (Deploy.deploy_resolved quiet (str "my-bucket") (str "us-east-1")
            (str "690332314549") (str "332134949057") (start ∅))
     = fst (Deploy.deploy_resolved quiet undefined (str "us-east-1")
              (str "690332314549") (str "332134949057") (start ∅))
  /\ trace (snd (Deploy.deploy_resolved quiet (str "my-bucket") (str "us-east-1")
                   (str "690332314549") (str "332134949057") (start ∅)))
     = trace (snd (Deploy.deploy_resolved quiet undefined (str "us-east-1")
                     (str "690332314549") (str "332134949057") (start ∅))).
Proof.
  destruct (C3_bucket_name_parameter_is_fixed quiet (str "my-bucket") undefined
              (str "us-east-1") (str "690332314549") (str "332134949057")
              "my-bucket" "undefined" "us-east-1" "690332314549" "332134949057" (start ∅))
    as (Hliteral & Ho & Ht & _); [reflexivity .. | ].
  split; [exact (Hliteral "create-stack") | split; [exact Ho | exact Ht]].
Defined.

Lemma C4_clearS3Bucket_examples :
  (exists p',
     Teardown.clearS3Bucket first_fails (str "my-bucket") (str "us-east-1") (start ∅)
       = (Ret tt, p')
     /\ trace p' =
          [Exec "aws s3api list-object-versions --bucket my-bucket --region us-east-1"])
  /\ (exists p',
       Teardown.clearS3Bucket versioned (str "my-bucket") (str "us-east-1") (start ∅)
         = (Ret tt, p')
       /\ trace p' =
            [Exec "aws s3api list-object-versions --bucket my-bucket --region us-east-1";
             Exec ("aws s3api delete-object --bucket my-bucket --key " +:+ DQ +:+ "q1.csv"
                   +:+ DQ +:+ " --version-id v1 --region us-east-1");
             Exec ("aws s3api delete-object --bucket my-bucket --key " +:+ DQ +:+ "q1.csv"
                   +:+ DQ +:+ " --version-id v2 --region us-east-1")]).
Proof.
  split.
  - destruct (proj1 (C4_clearS3Bucket_one_delete_per_entry first_fails
                       (str "my-bucket") (str "us-east-1") "my-bucket" "us-east-1" (start ∅)
                       eq_refl eq_refl) denied)
      as (p' & Hrun & Htrace & _); [vm_compute; reflexivity | ].
    exists p'. split; [exact Hrun | exact Htrace].
  - destruct (proj2 (C4_clearS3Bucket_one_delete_per_entry versioned
                       (str "my-bucket") (str "us-east-1") "my-bucket" "us-east-1" (start ∅)
                       eq_refl eq_refl)
                (stringify 0 listing) listing
                [JObj [ ("ETag", JStr "abc"); ("Size", JNum "3"); ("Key", JStr "q1.csv");
                        ("VersionId", JStr "v1"); ("IsLatest", JBool false) ]]
                [JObj [ ("Key", JStr "q1.csv"); ("VersionId", JStr "v2");
                        ("IsLatest", JBool true) ]]
                [("q1.csv", "v1")] [("q1.csv", "v2")])
      as (p' & Hrun & Htrace & _).
    + vm_compute. reflexivity.
    + vm_compute. reflexivity.
    + eexists. split; [reflexivity | left; reflexivity].
    + eexists. split; [reflexivity | left; reflexivity].
    + repeat constructor. eexists _, _. repeat split; reflexivity.
    + repeat constructor. eexists _, _. repeat split; reflexivity.
    + exists p'. split; [exact Hrun | exact Htrace].
Defined.



Lemma C7_seed_example :
  exists p',
    Seed.uploadToS3 seeding ∅ (str "my-bucket") empty_object (start seed_files) = (Exit 1, p')
    /\ console p' =
         [ Out "🚀 S3 Upload Script Starting...";
           Out "📁 Source directory: /repo/seed";
           Out "🪣 Target bucket: my-bucket";
           Out "🌍 Region: us-east-1";
           Out "";
           Out "🔍 Checking bucket access...";
           Out "✅ Bucket is accessible";
           Out "";
           Out "📂 Scanning seed directory...";
           Out "📋 Found 2 files to upload:";
           Out "   - q1.csv (10 Bytes)";
           Out "   - q2.csv (1.5 KB)";
           Out "";
           Out "📤 Starting uploads...";
           Out "📤 Uploading q1.csv (10 Bytes)...";
           Out "✅ Successfully uploaded q1.csv";
           Out "📤 Uploading q2.csv (1.5 KB)...";
           Err "❌ Failed to upload q2.csv: Access Denied";
           Out "";
           Out "📊 Upload Summary:";
           Out "==================";
           Out "✅ Successful uploads: 1";
           Out "📈 Total uploaded: 10 Bytes";
           Out "";
           Out "Successfully uploaded files:";
           Out "   ✅ q1.csv - ETag: etag-1";
           Out "";
           Out "❌ Failed uploads:";
           Out "   ❌ q2.csv - Error: Access Denied";
           Out "";
           Out "⚠️  Some uploads failed. Check the errors above." ].
Proof.
  destruct (C7_seed_reports_every_upload seeding ∅ (str "my-bucket") "my-bucket" empty_object
              (start seed_files) None seed_dir [q1; q2])
    as (o & p' & Hrun & _ & _ & _ & Hconsole & _);
    [vm_compute; reflexivity .. | ].
  assert (Ho : o = Exit 1).
  { change o with (fst (o, p')). rewrite <- Hrun. vm_compute. reflexivity. }
  exists p'. split; [rewrite <- Ho; exact Hrun | ].
  rewrite Hconsole. vm_compute. reflexivity.
Defined.

Lemma C8_round_trip_example :
  exists p' record,
    Deploy.persist_outputs (answering stack_outputs) (str "us-east-1") (start ∅)
      = (Ret tt, p')
    /\ ReadOutputs.readOutputs (answering stack_outputs) p' = (Ret record, p')
    /\ field record "BucketName" = Some (JStr "my-bucket")
    /\ field record "Region" = Some (JStr "us-east-1")
    /\ field record "Description" = undefined.
Proof.
  destruct (C8_record_holds_written_values (answering stack_outputs)
              (str "us-east-1") "us-east-1" (start ∅) (stringify 0 stack_outputs)
              [ output "BucketName" "my-bucket" "Name of the S3 bucket";
                output "Region" "us-east-1" "Region of the stack" ]
              [("BucketName", JStr "my-bucket"); ("Region", JStr "us-east-1")])
    as (p' & record & Hrun & _ & Hread & Hwritten & Hothers).
  - reflexivity.
  - vm_compute. reflexivity.
  - vm_compute. reflexivity.
  - repeat constructor.
  - repeat constructor.
  - repeat constructor; cbn; intuition discriminate.
  - repeat constructor; eexists; reflexivity.
  - vm_compute. reflexivity.
  - vm_compute. reflexivity.
  - exists p', record. split; [exact Hrun | ]. split; [exact Hread | ].
    split; [apply Hwritten; left; reflexivity | ].
    split; [apply Hwritten; right; left; reflexivity | ].
    apply Hothers. cbn. intuition discriminate.
Defined.

End Examples.
